(** * Workflow indicators of the repository's Actions page

    A shallow embedding of [source/features/github-actions-indicators.tsx]:
    the workflow list fetcher ([getWorkflows]), the workflow definition
    fetcher ([getFilesInWorkflowPath]), the merge loop of
    [getWorkflowsDetails] and the per-row resolution of [addIndicators].

    Conventions of the embedding.
    - A JavaScript string is the list of its UTF-16 code units ([jsstring]);
      [units] turns an ASCII literal into such a list.
    - A JavaScript object used as a dictionary ([Record<string, T>]) is a
      plain object ([jsobject]): its own properties, a [gmap] from
      [jsstring], and its prototype. A read that finds no own property
      goes on to the prototype, so the members of [Object.prototype] are
      found under their names; an assignment to [__proto__] reaches the
      accessor of [Object.prototype] and changes the prototype instead of
      creating a property.
    - A statement that throws rejects the promise of the function it is in
      ([Rejected]); what was done to the page before stays done.
    - The three packages the feature imports but does not define are
      parameters: the transport ([api.v3], [api.v4]) is the response the
      functions receive, the cron library ([parseCron.nextDate]) is a
      function variable that returns a date, returns nothing or throws, and
      the storage cache is the record of options the source passes to
      it. *)

From Stdlib Require Import String Ascii.
From stdpp Require Import gmap list.

Local Open Scope N_scope.

(** ** Strings *)

Abbreviation jsstring := (list N).

Definition units (s : string) : jsstring :=
  map N_of_ascii (list_ascii_of_string s).

Definition code (s : string) : N :=
  match units s with
  | c :: _ => c
  | [] => 0
  end.

(** [String.prototype.startsWith], used by the literal pieces of a pattern:
    the rest of [s] after the prefix [p], when [s] starts with it. *)
Fixpoint stripPrefix (p s : jsstring) : option jsstring :=
  match p with
  | [] => Some s
  | c :: p' =>
      match s with
      | [] => None
      | d :: s' => if c =? d then stripPrefix p' s' else None
      end
  end.

(** [String.prototype.includes]: some suffix of [s] starts with [t]. *)
Fixpoint includes (s t : jsstring) : bool :=
  match stripPrefix t s with
  | Some _ => true
  | None =>
      match s with
      | [] => false
      | _ :: s' => includes s' t
      end
  end.

(** [String.prototype.split] with a one-unit separator: the pieces between
    the separators, in order; always at least one piece. *)
Fixpoint split (sep : N) (s : jsstring) : list jsstring :=
  match s with
  | [] => [[]]
  | c :: s' =>
      if c =? sep then [] :: split sep s'
      else
        match split sep s' with
        | piece :: rest => (c :: piece) :: rest
        | [] => [[c]]
        end
  end.

(** [Array.prototype.pop]: the last element, [undefined] on an empty array. *)
Definition pop {A} (l : list A) : option A := last l.

(** ** The schedule pattern

    The pattern of the source is the literal word schedule, one or more
    units of the class (colon, white space, hyphen), the literal word cron,
    one or more units of the class (colon, white space, single quote,
    double quote), and capture group 1: one or more units that are neither
    a single quote, a double quote nor a line feed. Its only flag is m. *)

(** [\s] of ECMAScript: white space and line terminators. *)
Definition isSpace (c : N) : bool :=
  (c =? 9) || (c =? 10) || (c =? 11) || (c =? 12) || (c =? 13) || (c =? 32)
  || (c =? 160) || (c =? 5760) || ((8192 <=? c) && (c <=? 8202))
  || (c =? 8232) || (c =? 8233) || (c =? 8239) || (c =? 8287)
  || (c =? 12288) || (c =? 65279).

(** The class of colon, white space and hyphen. *)
Definition classSep (c : N) : bool :=
  (c =? code ":") || isSpace c || (c =? code "-").

(** The class of colon, white space, single quote (39) and double
    quote (34). *)
Definition classQuote (c : N) : bool :=
  (c =? code ":") || isSpace c || (c =? 39) || (c =? 34).

(** The negated class: anything but a single quote, a double quote and a
    line feed. *)
Definition classCron (c : N) : bool :=
  negb ((c =? 39) || (c =? 34) || (c =? 10)).

Section Backtracking.
Context {R : Type}.

(** A literal piece followed by the continuation [k]. *)
Definition lit (p : jsstring) (k : jsstring → option R) (s : jsstring)
  : option R :=
  match stripPrefix p s with
  | Some s' => k s'
  | None => None
  end.

(** A greedy [[cls]+] followed by the continuation [k], which receives the
    units consumed and the rest: one more unit is tried first, and the
    continuation is tried at the shorter run only when that fails. *)
Fixpoint greedyPlus (cls : N → bool) (k : jsstring → jsstring → option R)
    (s : jsstring) : option R :=
  match s with
  | [] => None
  | c :: s' =>
      if cls c then
        match greedyPlus cls (λ m r, k (c :: m) r) s' with
        | Some x => Some x
        | None => k [c] s'
        end
      else None
  end.
End Backtracking.

(** An attempt of the whole pattern at the start of [s]; the result is
    capture group 1. *)
Definition matchHere (s : jsstring) : option jsstring :=
  lit (units "schedule")
    (greedyPlus classSep (λ _,
       lit (units "cron")
         (greedyPlus classQuote (λ _,
            greedyPlus classCron (λ m _, Some m))))) s.

(** [RegExp.prototype.exec] without the sticky or global flag: the attempt
    at the leftmost index that succeeds. The [m] flag only changes the
    anchors, and the pattern has none. *)
Fixpoint exec (s : jsstring) : option jsstring :=
  match matchHere s with
  | Some m => Some m
  | None =>
      match s with
      | [] => None
      | _ :: s' => exec s'
      end
  end.

(** ** Data model *)

(** [type Workflow] *)
Record Workflow := {
  name : jsstring;
  isEnabled : bool;
}.

(** [type WorkflowDetails]; an optional [schedule] that is absent is
    [None]. *)
Record WorkflowDetails := {
  schedule : option jsstring;
  manuallyDispatchable : bool;
}.

(** [Workflow & WorkflowDetails], the value kept per name: the fields of
    both records side by side. *)
Abbreviation ComposedWorkflow := (Workflow * WorkflowDetails)%type.

(** A promise that has settled. *)
Inductive outcome (A : Type) :=
  | Resolved (a : A)
  | Rejected.
Arguments Resolved {A} a.
Arguments Rejected {A}.

(** A [for ... of] loop whose body may throw: the first throw ends it. *)
Fixpoint forEach {A S} (body : S → A → outcome S) (state : S) (l : list A)
  : outcome S :=
  match l with
  | [] => Resolved state
  | x :: rest =>
      match body state x with
      | Resolved state' => forEach body state' rest
      | Rejected => Rejected
      end
  end.

(** An element of [response.workflows] of the REST endpoint. *)
Record listedWorkflow := {
  path : jsstring;
  state : jsstring;
}.

(** The [object] of a tree entry as the response can hold it: a blob with
    its text, a blob whose text is [null] (a binary file), another object,
    of which the inline fragment on [Blob] selects nothing, or [null]. *)
Inductive gitObject :=
  | Blob (text : jsstring)
  | BinaryBlob
  | Tree
  | NoObject.

Record treeEntry := {
  entryName : jsstring;
  object : gitObject;
}.

(** ** Values and plain objects *)

(** What a property read can give in this program: [undefined], [null], a
    boolean, a string, a composed workflow, or the member of
    [Object.prototype] of a given name (a function, and under [__proto__]
    the prototype object itself). *)
Inductive property :=
  | Undefined
  | Null
  | Boolean (b : bool)
  | Text (s : jsstring)
  | Composed (w : ComposedWorkflow)
  | Inherited (k : jsstring).

(** The prototype of a dictionary: [Object.prototype] as [{}] creates it,
    [null] or a composed workflow after an assignment to [__proto__]. *)
Inductive prototype :=
  | ObjectPrototype
  | NullPrototype
  | ComposedPrototype (w : ComposedWorkflow).

Record jsobject := {
  own : gmap jsstring property;
  proto : prototype;
}.

(** [{}] *)
Definition emptyObject : jsobject :=
  {| own := ∅; proto := ObjectPrototype |}.

(** The own property names of [Object.prototype]. *)
Definition objectPrototypeNames : list jsstring :=
  [ units "constructor"; units "__defineGetter__"; units "__defineSetter__";
    units "hasOwnProperty"; units "__lookupGetter__";
    units "__lookupSetter__"; units "isPrototypeOf";
    units "propertyIsEnumerable"; units "toString"; units "valueOf";
    units "__proto__"; units "toLocaleString" ].

Definition protoKey : jsstring := units "__proto__".

(** The own properties of a composed workflow; [schedule] is there also
    when it holds [undefined]. *)
Definition composedField (w : ComposedWorkflow) (k : jsstring)
  : option property :=
  if bool_decide (k = units "name") then Some (Text (name w.1))
  else if bool_decide (k = units "isEnabled")
  then Some (Boolean (isEnabled w.1))
  else if bool_decide (k = units "schedule")
  then Some (match schedule w.2 with
             | Some expression => Text expression
             | None => Undefined
             end)
  else if bool_decide (k = units "manuallyDispatchable")
  then Some (Boolean (manuallyDispatchable w.2))
  else None.

(** A read that goes to [Object.prototype], for an object whose prototype
    chain ends there; the accessor [__proto__] answers with the prototype
    of the object read. *)
Definition fromObjectPrototype (k : jsstring) : property :=
  if bool_decide (k ∈ objectPrototypeNames) then Inherited k else Undefined.

(** A read that finds no own property. *)
Definition inherited (p : prototype) (k : jsstring) : property :=
  match p with
  | NullPrototype => Undefined
  | ObjectPrototype => fromObjectPrototype k
  | ComposedPrototype w =>
      match composedField w k with
      | Some v => v
      | None =>
          if bool_decide (k = protoKey) then Composed w
          else fromObjectPrototype k
      end
  end.

(** [o[k]] *)
Definition get (o : jsobject) (k : jsstring) : property :=
  match own o !! k with
  | Some v => v
  | None => inherited (proto o) k
  end.

(** What [if (v)] takes as true. *)
Definition truthy (v : property) : bool :=
  match v with
  | Undefined | Null => false
  | Boolean b => b
  | Text s => negb (bool_decide (s = []))
  | Composed _ | Inherited _ => true
  end.

(** An assignment [o[k] = v] reaches the accessor of [Object.prototype]
    when [k] is [__proto__], [o] has no own property of that name and the
    prototype chain of [o] ends in [Object.prototype]. *)
Definition reachesAccessor (o : jsobject) (k : jsstring) : bool :=
  bool_decide (k = protoKey) && bool_decide (own o !! k = None)
  && match proto o with
     | NullPrototype => false
     | _ => true
     end.

(** [workflow.object.text], for an object that is not [null]. *)
Inductive textField :=
  | NoText
  | NullText
  | SomeText (s : jsstring).

Definition toProperty (t : textField) : property :=
  match t with
  | NoText => Undefined
  | NullText => Null
  | SomeText s => Text s
  end.

(** [workflow.object.text]; reading [text] of [null] throws ([None]). *)
Definition objectText (o : gitObject) : option textField :=
  match o with
  | Blob t => Some (SomeText t)
  | BinaryBlob => Some NullText
  | Tree => Some NoText
  | NoObject => None
  end.

(** [result[k] = text]: the accessor takes [null] as the new prototype and
    ignores a string or [undefined]. *)
Definition assignText (o : jsobject) (k : jsstring) (t : textField)
  : jsobject :=
  if reachesAccessor o k then
    match t with
    | NullText => {| own := own o; proto := NullPrototype |}
    | _ => o
    end
  else {| own := <[k := toProperty t]> (own o); proto := proto o |}.

(** [details[k] = {...}]: the accessor takes the object as the new
    prototype. *)
Definition assignComposed (o : jsobject) (k : jsstring) (w : ComposedWorkflow)
  : jsobject :=
  if reachesAccessor o k then {| own := own o; proto := ComposedPrototype w |}
  else {| own := <[k := Composed w]> (own o); proto := proto o |}.

(** ** The fetchers *)

(** [workflow.path.split('/').pop()!] *)
Definition lastSegment (p : jsstring) : jsstring :=
  default [] (pop (split (code "/") p)).

(** [getWorkflows], from the settled REST response. *)
Definition getWorkflows (response : outcome (list listedWorkflow))
  : outcome (list Workflow) :=
  match response with
  | Rejected => Rejected
  | Resolved workflows =>
      Resolved
        ((λ workflow,
            {| name := lastSegment (path workflow);
               isEnabled := bool_decide (state workflow = units "active") |})
           <$> workflows)
  end.

(** The body of the loop of [getFilesInWorkflowPath]. *)
Definition storeEntry (result : jsobject) (workflow : treeEntry)
  : outcome jsobject :=
  match objectText (object workflow) with
  | Some text => Resolved (assignText result (entryName workflow) text)
  | None => Rejected
  end.

(** [getFilesInWorkflowPath], from the settled GraphQL response;
    [workflowFiles] is [None] when the expression resolves to no tree. *)
Definition getFilesInWorkflowPath
    (response : outcome (option (list treeEntry)))
  : outcome jsobject :=
  match response with
  | Rejected => Rejected
  | Resolved workflowFiles =>
      let workflows := default [] workflowFiles in
      forEach storeEntry emptyObject workflows
  end.

(** ** The aggregation *)

(** One turn of the loop of [getWorkflowsDetails]: [undefined] skips the
    summary, a string is read, and on anything else the call of
    [workflowYaml.includes] throws, as the value has no such method. *)
Definition mergeStep (workflowFiles : jsobject) (details : jsobject)
    (workflow : Workflow) : outcome jsobject :=
  match get workflowFiles (name workflow) with
  | Undefined => Resolved details
  | Text workflowYaml =>
      let cron := exec workflowYaml in
      Resolved
        (assignComposed details (name workflow)
           (workflow,
            {| schedule := cron;
               manuallyDispatchable :=
                 includes workflowYaml (units "workflow_dispatch:") |}))
  | _ => Rejected
  end.

Definition mergeLoop (workflows : list Workflow) (workflowFiles : jsobject)
  : outcome jsobject :=
  forEach (mergeStep workflowFiles) emptyObject workflows.

(** The function given to the cache: both fetches are awaited together and
    either rejection rejects the whole. *)
Definition getWorkflowsDetails
    (rest : outcome (list listedWorkflow))
    (graphql : outcome (option (list treeEntry)))
  : outcome jsobject :=
  match getWorkflows rest, getFilesInWorkflowPath graphql with
  | Resolved workflows, Resolved workflowFiles =>
      mergeLoop workflows workflowFiles
  | _, _ => Rejected
  end.

(** The options the source passes to the cache, in days. *)
Record cacheOptions := {
  maxAge : N;
  staleWhileRevalidate : N;
}.

Definition workflowsDetailsOptions : cacheOptions :=
  {| maxAge := 1; staleWhileRevalidate := 10 |}.

(** Literals with a line feed or a double quote. *)
Definition nl : string := String (ascii_of_N 10) EmptyString.
Definition dq : string := String (ascii_of_N 34) EmptyString.

(** ** The rows of the workflow list *)

Inductive icon :=
  | StopIcon
  | PlayIcon.

Global Instance icon_eq_dec : EqDecision icon.
Proof. solve_decision. Defined.

(** What [addIndicators] reads and writes of a list row
    ([a.ActionList-content]): its address, whether an element of class
    [octicon-stop] was in it from the start, its [aria-label] attribute
    and class list, the trailing containers appended to it, each with its
    icons, whether it has a label element ([.ActionList-item-label]), the
    [relative-time] elements appended to that label and the callbacks
    waiting in [setTimeout]. *)
Record row := {
  href : jsstring;
  octiconStop : bool;
  ariaLabel : option jsstring;
  classList : list jsstring;
  trailing : list (list icon);
  labelElement : bool;
  label : list Z;
  timers : list Z;
}.

Definition setTooltip (element : row) (classes : list jsstring)
    (tooltip : jsstring) : row :=
  {| href := href element; octiconStop := octiconStop element;
     ariaLabel := Some tooltip; classList := classes;
     trailing := trailing element; labelElement := labelElement element;
     label := label element; timers := timers element |}.

(** [DOMTokenList.add]: a token already there is not added again. *)
Definition classListAdd (classes : list jsstring) (tokens : list jsstring)
  : list jsstring :=
  foldl (λ l t, if bool_decide (t ∈ l) then l else l ++ [t]) classes tokens.

(** [addTooltip]; a missing attribute and an empty one are both falsy. *)
Definition addTooltip (element : row) (tooltip : jsstring) : row :=
  match ariaLabel element with
  | Some (c :: existing) =>
      setTooltip element (classList element)
        ((c :: existing) ++ units ("." ++ nl) ++ tooltip)
  | _ =>
      setTooltip element
        (classListAdd (classList element)
           [units "tooltipped"; units "tooltipped-s"])
        tooltip
  end.

(** [workflowListItem.append(svgTrailer)]: a new, empty container at the
    end of the row. *)
Definition appendTrailer (element : row) : row :=
  {| href := href element; octiconStop := octiconStop element;
     ariaLabel := ariaLabel element; classList := classList element;
     trailing := trailing element ++ [[]];
     labelElement := labelElement element;
     label := label element; timers := timers element |}.

Fixpoint appendToLast (containers : list (list icon)) (i : icon)
  : list (list icon) :=
  match containers with
  | [] => []
  | [svgTrailer] => [svgTrailer ++ [i]]
  | c :: rest => c :: appendToLast rest i
  end.

(** [svgTrailer.append(<Icon/>)], the container being the one appended
    last. *)
Definition appendIcon (element : row) (i : icon) : row :=
  {| href := href element; octiconStop := octiconStop element;
     ariaLabel := ariaLabel element; classList := classList element;
     trailing := appendToLast (trailing element) i;
     labelElement := labelElement element;
     label := label element; timers := timers element |}.

(** The [em] with the [relative-time] appended to the label, and the
    tooltip callback handed to [setTimeout]. *)
Definition appendRelativeTime (element : row) (nextTime : Z) : row :=
  {| href := href element; octiconStop := octiconStop element;
     ariaLabel := ariaLabel element; classList := classList element;
     trailing := trailing element; labelElement := labelElement element;
     label := label element ++ [nextTime];
     timers := timers element ++ [nextTime] |}.

(** [select.exists('.octicon-stop', workflowListItem)]: the stop icon of
    the icon set carries that class. *)
Definition existsOcticonStop (element : row) : bool :=
  octiconStop element
  || existsb (λ icons, bool_decide (StopIcon ∈ icons)) (trailing element).

(** What a call of [parseCron.nextDate] can do: throw, return [undefined]
    or return a date. *)
Inductive projection :=
  | Throws
  | Nothing
  | Date (t : Z).

(** How a run of [addIndicators] ends. *)
Inductive completion :=
  | Fulfilled
  | Thrown.

(** [workflow.isEnabled], [workflow.manuallyDispatchable] and
    [workflow.schedule] of a truthy [workflow]: the fields of a composed
    workflow, and [undefined] on a string, a boolean or a member of
    [Object.prototype], none of which has such a property. *)
Definition isEnabledOf (workflow : property) : property :=
  match workflow with
  | Composed w => Boolean (isEnabled w.1)
  | _ => Undefined
  end.

Definition manuallyDispatchableOf (workflow : property) : property :=
  match workflow with
  | Composed w => Boolean (manuallyDispatchable w.2)
  | _ => Undefined
  end.

Definition scheduleOf (workflow : property) : property :=
  match workflow with
  | Composed w =>
      match schedule w.2 with
      | Some expression => Text expression
      | None => Undefined
      end
  | _ => Undefined
  end.

Section Indicators.
(** [parseCron.nextDate] of the cron library, at the clock reading of
    the call. *)
Variable nextDate : jsstring → Z → projection.
Variable now : Z.

(** The part of [addIndicators] after the workflow is found; appending to
    a label element that is not there throws. *)
Definition drawIndicators (workflow : property) (workflowListItem : row)
  : row * completion :=
  let item := appendTrailer workflowListItem in
  let item :=
    if negb (truthy (isEnabledOf workflow))
    then addTooltip (appendIcon item StopIcon)
           (units "This workflow is not enabled")
    else item in
  let item :=
    if truthy (manuallyDispatchableOf workflow)
    then addTooltip (appendIcon item PlayIcon)
           (units "This workflow can be triggered manually")
    else item in
  match scheduleOf workflow with
  | Text (c :: expression) =>
      match nextDate (c :: expression) now with
      | Throws => (item, Thrown)
      | Nothing => (item, Fulfilled)
      | Date nextTime =>
          if labelElement item
          then (appendRelativeTime item nextTime, Fulfilled)
          else (item, Thrown)
      end
  | _ => (item, Fulfilled)
  end.

(** [addIndicators], given the settled result of the cached lookup: the row
    as the run leaves it and how the run ends. *)
Definition addIndicators (cached : outcome jsobject) (workflowListItem : row)
  : row * completion :=
  if existsOcticonStop workflowListItem then (workflowListItem, Fulfilled)
  else
    match cached with
    | Rejected => (workflowListItem, Thrown)
    | Resolved workflows =>
        let workflowName := lastSegment (href workflowListItem) in
        let workflow := get workflows workflowName in
        if truthy workflow then drawIndicators workflow workflowListItem
        else (workflowListItem, Fulfilled)
    end.
End Indicators.

(** The indicators a run left on a row: the icons of the container it
    appended. *)
Definition newestTrailer (element : row) : list icon :=
  default [] (last (trailing element)).

Definition disabled (element : row) : bool :=
  bool_decide (StopIcon ∈ newestTrailer element).

Definition dispatchable (element : row) : bool :=
  bool_decide (PlayIcon ∈ newestTrailer element).

(** * Vocabulary of the statements *)

(** ** The schedule pattern, declaratively *)

(** [s] starts with a match of the pattern: the word schedule, the
    separators [a], the word cron, the opening [b], the captured [c], and
    whatever follows. *)
Definition matchesAt (s a b c rest : jsstring) : Prop :=
  s = units "schedule" ++ a ++ units "cron" ++ b ++ c ++ rest ∧
  a ≠ [] ∧ Forall classSep a ∧
  b ≠ [] ∧ Forall classQuote b ∧
  c ≠ [] ∧ Forall classCron c.

(** The capture stops at the end of the text or in front of a quote or a
    line feed. *)
Definition stopsCapture (rest : jsstring) : Prop :=
  match rest with
  | [] => True
  | x :: _ => classCron x = false
  end.

(** The leftmost match, its runs chosen as the backtracking chooses them:
    no match starts further left, the separators are the only possible
    ones, the opening is the longest that leaves something to capture, and
    the capture runs to the end of the text or to a quote or line feed. *)
Definition firstMatch (text c : jsstring) : Prop :=
  ∃ before s a b rest,
    text = before ++ s ∧ matchesAt s a b c rest ∧ stopsCapture rest ∧
    (∀ a' b' c' rest', matchesAt s a' b' c' rest' →
       a' = a ∧ (length b' ≤ length b)%nat) ∧
    (∀ before' s', text = before' ++ s' →
       (length before' < length before)%nat →
       ∀ a' b' c' rest', ¬ matchesAt s' a' b' c' rest').

(** ** The aggregation and the rows *)

(** The details read off a definition text. *)
Definition detailsOf (workflowYaml : jsstring) : WorkflowDetails :=
  {| schedule := exec workflowYaml;
     manuallyDispatchable := includes workflowYaml (units "workflow_dispatch:") |}.

(** The summaries of a given name, in list order. *)
Definition named (n : jsstring) (workflows : list Workflow) : list Workflow :=
  filter (λ workflow, name workflow = n) workflows.

(** The summaries [getWorkflows] makes of the listed workflows. *)
Definition summariesOf (listed : list listedWorkflow) : list Workflow :=
  (λ workflow,
     {| name := lastSegment (path workflow);
        isEnabled := bool_decide (state workflow = units "active") |})
    <$> listed.

(** The dictionary [getFilesInWorkflowPath] builds from the entries. *)
Definition filesOf (entries : list treeEntry) : outcome jsobject :=
  forEach storeEntry emptyObject entries.


(** The entry that takes the prototype of the dictionary away: a binary
    file named [__proto__]. *)
Definition nullPrototypeEntry : treeEntry :=
  {| entryName := protoKey; object := BinaryBlob |}.

(** The own property names of a composed workflow. *)
Definition composedFieldNames : list jsstring :=
  [ units "name"; units "isEnabled"; units "schedule";
    units "manuallyDispatchable" ].

(** A value on which the merge loop throws: anything but [undefined] and
    a string. *)
Definition throwsOn (v : property) : bool :=
  match v with
  | Undefined | Text _ => false
  | _ => true
  end.

(** The composed workflow an aggregation holds for a name: under
    [__proto__] the one that became the prototype, otherwise the own
    property of that name. *)
Definition slot (details : jsobject) (n : jsstring)
  : option ComposedWorkflow :=
  if bool_decide (n = protoKey) then
    match proto details with
    | ComposedPrototype w => Some w
    | _ => None
    end
  else
    match own details !! n with
    | Some (Composed w) => Some w
    | _ => None
    end.

(** What the loop is to hold for a name: the last summary of the name
    with the details of the text found under it. *)
Definition expected (workflows : list Workflow) (workflowFiles : jsobject)
    (n : jsstring) : option ComposedWorkflow :=
  match get workflowFiles n with
  | Text workflowYaml =>
      (λ workflow, (workflow, detailsOf workflowYaml))
        <$> last (named n workflows)
  | _ => None
  end.

(** The shape of a dictionary the merge loop builds: no own property
    [__proto__], a prototype that is not [null], and composed workflows
    only. *)
Definition aggregated (details : jsobject) : Prop :=
  own details !! protoKey = None ∧
  proto details ≠ NullPrototype ∧
  ∀ n v, own details !! n = Some v → ∃ w, v = Composed w.

(** Two aggregations laid over one another, the first on top. *)
Definition overlay (top bottom : outcome jsobject) : outcome jsobject :=
  match top, bottom with
  | Resolved t, Resolved b =>
      Resolved
        {| own := own t ∪ own b;
           proto := match proto t with
                    | ObjectPrototype => proto b
                    | p => p
                    end |}
  | _, _ => Rejected
  end.

(** The row after the two icon rules of [addIndicators], before the
    schedule is looked at. *)
Definition afterIcons (workflow : property) (workflowListItem : row) : row :=
  let item := appendTrailer workflowListItem in
  let item :=
    if negb (truthy (isEnabledOf workflow))
    then addTooltip (appendIcon item StopIcon)
           (units "This workflow is not enabled")
    else item in
  if truthy (manuallyDispatchableOf workflow)
  then addTooltip (appendIcon item PlayIcon)
         (units "This workflow can be triggered manually")
  else item.



(** ** The scenario of the specification *)

(** The definition text and the row address of the scenario. *)
Definition scenarioYaml : jsstring :=
  units ("on:" ++ nl ++ "  workflow_dispatch:" ++ nl ++ "  schedule:" ++ nl
         ++ "    - cron: '30 5 * * 1'").

(** A definition whose cron string is no cron expression, and a directory
    with a file and a subdirectory. *)
Definition unparsableYaml : jsstring :=
  units ("on:" ++ nl ++ "  schedule:" ++ nl ++ "    - cron: 'every day'").

(** A definition whose cron string is the name of a member of
    [Object.prototype], and a cron library that throws on that string and
    returns nothing on any other. *)
Definition memberCronYaml : jsstring :=
  units ("on:" ++ nl ++ "  schedule:" ++ nl ++ "    - cron: constructor").

Definition throwingNextDate (expression : jsstring) (now : Z) : projection :=
  if bool_decide (expression = units "constructor") then Throws else Nothing.

Definition scenarioDirectory : list treeEntry :=
  [ {| entryName := units "ci.yml"; object := Blob (units "on: push") |};
    {| entryName := units "scripts"; object := Tree |} ].

(** The dictionary of definitions with one file. *)
Definition oneFile (n workflowYaml : jsstring) : jsobject :=
  {| own := {[ n := Text workflowYaml ]}; proto := ObjectPrototype |}.

(** A row of the list that nothing was drawn on. *)
Definition scenarioRow : row :=
  {| href := units "https://github.com/fregante/eslint-formatters/actions/workflows/ci.yml";
     octiconStop := false;
     ariaLabel := None;
     classList := [units "ActionList-content"];
     trailing := [];
     labelElement := true;
     label := [];
     timers := [] |}.


(** ** The extraction as the specification words it

    The same pattern under the ignore-case flag: the two literal words
    match whatever the case of their letters. The classes hold no letter,
    so they are as before. *)

Definition lowerUnit (c : N) : N :=
  if (65 <=? c) && (c <=? 90) then c + 32 else c.

Fixpoint stripPrefixIgnoreCase (p s : jsstring) : option jsstring :=
  match p with
  | [] => Some s
  | c :: p' =>
      match s with
      | [] => None
      | d :: s' =>
          if lowerUnit c =? lowerUnit d then stripPrefixIgnoreCase p' s'
          else None
      end
  end.

Definition litIgnoreCase {R} (p : jsstring) (k : jsstring → option R)
    (s : jsstring) : option R :=
  match stripPrefixIgnoreCase p s with
  | Some s' => k s'
  | None => None
  end.

Definition matchHereIgnoreCase (s : jsstring) : option jsstring :=
  litIgnoreCase (units "schedule")
    (greedyPlus classSep (λ _,
       litIgnoreCase (units "cron")
         (greedyPlus classQuote (λ _,
            greedyPlus classCron (λ m _, Some m))))) s.

Fixpoint execIgnoreCase (s : jsstring) : option jsstring :=
  match matchHereIgnoreCase s with
  | Some m => Some m
  | None =>
      match s with
      | [] => None
      | _ :: s' => execIgnoreCase s'
      end
  end.

(** * Properties *)


(** ** Strings *)

Lemma stripPrefix_Some p s s' : stripPrefix p s = Some s' ↔ s = p ++ s'.
Proof.
  revert s. induction p as [|c p IH]; intros s; simpl.
  - split; [by intros [= ->] | by intros ->].
  - destruct s as [|d s]; [by split|].
    destruct (N.eqb_spec c d) as [->|Hne].
    + rewrite IH. split; [by intros -> | by intros [= ->]].
    + split; [done | intros [= ? ?]; congruence].
Qed.

Lemma stripPrefix_None p s : stripPrefix p s = None ↔ ∀ s', s ≠ p ++ s'.
Proof.
  split.
  - intros H s' ->. assert (stripPrefix p (p ++ s') = Some s') as E
      by by apply stripPrefix_Some.
    congruence.
  - intros H. destruct (stripPrefix p s) as [s'|] eqn:E; [|done].
    apply stripPrefix_Some in E. by destruct (H s').
Qed.

(** [includes] decides the occurrence of [t] as a substring. *)
Lemma includes_spec s t :
  includes s t = true ↔ ∃ before after, s = before ++ t ++ after.
Proof.
  induction s as [|c s IH]; simpl.
  - destruct (stripPrefix t []) as [s'|] eqn:E.
    + apply stripPrefix_Some in E. split; [|done]. intros _.
      exists [], s'. done.
    + split; [done|]. intros ([|? ?] & after & H); [|done].
      simpl in H. by destruct (proj1 (stripPrefix_None _ _) E after).
  - destruct (stripPrefix t (c :: s)) as [s'|] eqn:E.
    + apply stripPrefix_Some in E. split; [|done]. intros _.
      by exists [], s'.
    + rewrite IH. split.
      * intros (before & after & ->). by exists (c :: before), after.
      * intros ([|d before] & after & H).
        -- simpl in H. by destruct (proj1 (stripPrefix_None _ _) E after).
        -- injection H as -> ->. by exists before, after.
Qed.

(** ** The backtracking pieces *)

Section BacktrackingFacts.
Context {R : Type}.
Implicit Types (k : jsstring → jsstring → option R) (cls : N → bool).

Lemma lit_Some p (k1 : jsstring → option R) s x :
  lit p k1 s = Some x ↔ ∃ s', s = p ++ s' ∧ k1 s' = Some x.
Proof.
  unfold lit. destruct (stripPrefix p s) as [s'|] eqn:E.
  - apply stripPrefix_Some in E as ->. split; [by exists s'|].
    by intros (s'' & ->%app_inv_head & ?).
  - split; [done|]. intros (s' & -> & _).
    by destruct (proj1 (stripPrefix_None _ _) E s').
Qed.

(** [greedyPlus] fails only when the continuation fails at every nonempty
    run of the class. *)
Lemma greedyPlus_None cls k s :
  greedyPlus cls k s = None →
  ∀ m r, s = m ++ r → m ≠ [] → Forall cls m → k m r = None.
Proof.
  revert k. induction s as [|a s IH]; intros k HN m r Heq Hne Hall.
  - by destruct m.
  - destruct m as [|b m]; [done|]. injection Heq as <- ->.
    simpl in HN. inversion Hall as [|? ? Hb Hall']; subst.
    destruct (cls a); [|done].
    destruct (greedyPlus cls (λ m r, k (a :: m) r) (m ++ r))
      as [?|] eqn:E0; [done|].
    destruct m as [|b' m]; [done|].
    by apply (IH _ E0 (b' :: m) r).
Qed.

(** A successful [greedyPlus] consumed a nonempty run [m] of the class at
    which the continuation succeeded, and the continuation fails at every
    longer run of the class. *)
Lemma greedyPlus_Some cls k s x :
  greedyPlus cls k s = Some x →
  ∃ m r, s = m ++ r ∧ m ≠ [] ∧ Forall cls m ∧ k m r = Some x ∧
         ∀ m' r', s = m' ++ r' → Forall cls m' →
                  (length m < length m')%nat → k m' r' = None.
Proof.
  revert k. induction s as [|c s IH]; intros k; simpl; [done|].
  destruct (cls c) eqn:Hc; [|done].
  destruct (greedyPlus cls (λ m r, k (c :: m) r) s) as [y|] eqn:E.
  - intros [= ->]. apply IH in E as (m & r & -> & Hm & Hcls & Hk & Hmax).
    exists (c :: m), r. split_and!; [done|done| |done|].
    + constructor; [by rewrite Hc | done].
    + intros [|d m'] r' Heq Hcls' Hlen; [simpl in Hlen; lia|].
      injection Heq as <- Heq. apply (Hmax m' r' Heq).
      * by inversion Hcls'.
      * simpl in Hlen. lia.
  - intros Hk. exists [c], s. split_and!; [done|done| |done|].
    + constructor; [by rewrite Hc | constructor].
    + intros [|d [|e m']] r' Heq Hcls' Hlen; [simpl in Hlen; lia..|].
      injection Heq as <- Heq. clear Hlen.
      apply (greedyPlus_None _ _ _ E (e :: m') r' Heq); [done|].
      by inversion Hcls'.
Qed.
End BacktrackingFacts.

Lemma run_then_outsider (P : N → bool) m m' x x' t t' :
  Forall P m → Forall P m' → P x = false → P x' = false →
  m ++ x :: t = m' ++ x' :: t' → m = m'.
Proof.
  revert m'. induction m as [|c m IH]; intros [|c' m'] Hm Hm' Hx Hx' Heq;
    simpl in *.
  - done.
  - injection Heq as -> _. inversion Hm' as [|? ? Hc]; subst.
    rewrite Hx in Hc. done.
  - injection Heq as -> _. inversion Hm as [|? ? Hc]; subst.
    rewrite Hx' in Hc. done.
  - injection Heq as -> Heq. f_equal.
    inversion Hm; inversion Hm'; subst. by apply (IH m').
Qed.

Lemma matchHere_Some s c :
  matchHere s = Some c →
  ∃ a b rest, matchesAt s a b c rest ∧ stopsCapture rest ∧
    ∀ a' b' c' rest', matchesAt s a' b' c' rest' →
      a' = a ∧ (length b' ≤ length b)%nat.
Proof.
  unfold matchHere. intros H.
  apply lit_Some in H as (s1 & -> & H).
  apply greedyPlus_Some in H as (a & r1 & -> & Ha & Hca & H & _).
  apply lit_Some in H as (s2 & -> & H).
  apply greedyPlus_Some in H as (b & r2 & -> & Hb & Hcb & H & Hbmax).
  apply greedyPlus_Some in H as (c0 & rest & -> & Hc & Hcc & [= ->] & Hcmax).
  exists a, b, rest. split_and!.
  - by split_and!.
  - destruct rest as [|x rest]; [done|]. simpl.
    destruct (classCron x) eqn:Hx; [|done].
    specialize (Hcmax (c ++ [x]) rest).
    rewrite <-app_assoc in Hcmax. simpl in Hcmax.
    assert (Some (c ++ [x]) = None); [|done].
    apply Hcmax; [done| |rewrite length_app; simpl; lia].
    apply Forall_app. split; [done|]. constructor; [by rewrite Hx|done].
  - intros a' b' c' rest' (Heq & Ha' & Hca' & Hb' & Hcb' & Hc' & Hcc').
    apply app_inv_head in Heq.
    change (units "cron") with (99 :: [114; 111; 110]) in Heq.
    simpl in Heq.
    assert (a' = a) as ->.
    { eapply (run_then_outsider classSep); [done|done| | |symmetry; exact Heq];
        by vm_compute. }
    split; [done|].
    apply app_inv_head in Heq. injection Heq as Heq.
    destruct (decide (length b' ≤ length b)%nat) as [|Hlt]; [done|].
    exfalso. assert (length b < length b')%nat as Hlen by lia.
    specialize (Hbmax b' (c' ++ rest') Heq Hcb' Hlen).
    destruct c' as [|x c']; [done|]. simpl in Hbmax.
    inversion Hcc' as [|? ? Hx]; subst. destruct (classCron x); [|done].
    by destruct (greedyPlus classCron _ (c' ++ rest')).
Qed.

Lemma matchHere_complete s a b c rest :
  matchesAt s a b c rest → is_Some (matchHere s).
Proof.
  intros (-> & Ha & Hca & Hb & Hcb & Hc & Hcc).
  destruct (matchHere _) as [x|] eqn:E; [by eexists|]. exfalso.
  unfold matchHere, lit in E.
  rewrite (proj2 (stripPrefix_Some _ _ _) eq_refl) in E.
  pose proof (greedyPlus_None _ _ _ E a _ eq_refl Ha Hca) as E1.
  cbv beta in E1. rewrite (proj2 (stripPrefix_Some _ _ _) eq_refl) in E1.
  pose proof (greedyPlus_None _ _ _ E1 b _ eq_refl Hb Hcb) as E2.
  cbv beta in E2.
  by pose proof (greedyPlus_None _ _ _ E2 c _ eq_refl Hc Hcc).
Qed.

Lemma matchHere_None s :
  matchHere s = None ↔ ∀ a b c rest, ¬ matchesAt s a b c rest.
Proof.
  split.
  - intros E a b c rest [x Hx]%matchHere_complete. congruence.
  - intros H. destruct (matchHere s) as [c|] eqn:E; [|done].
    apply matchHere_Some in E as (a & b & rest & Hm & _). by destruct (H a b c rest).
Qed.

Lemma exec_Some s c :
  exec s = Some c →
  ∃ before s', s = before ++ s' ∧ matchHere s' = Some c ∧
    ∀ before' s'', s = before' ++ s'' →
      (length before' < length before)%nat → matchHere s'' = None.
Proof.
  induction s as [|x s IH]; simpl.
  - done.
  - destruct (matchHere (x :: s)) as [m|] eqn:E.
    + intros [= ->]. exists [], (x :: s). split_and!; [done..|].
      intros ? ? _ Hlen. simpl in Hlen. lia.
    + intros (before & s' & -> & Hm & Hleft)%IH.
      exists (x :: before), s'. split_and!; [done..|].
      intros [|y before'] s'' Heq Hlen.
      * simpl in Heq. by subst.
      * injection Heq as <- Heq. apply (Hleft before' s'' Heq).
        simpl in Hlen. lia.
Qed.

Lemma exec_None s :
  exec s = None ↔ ∀ before s', s = before ++ s' → matchHere s' = None.
Proof.
  split.
  - induction s as [|x s IH]; simpl.
    + intros _ [|? ?] s' Heq; [|done]. simpl in Heq. by subst.
    + destruct (matchHere (x :: s)) eqn:E; [done|].
      intros Hs [|y before] s' Heq.
      * simpl in Heq. by subst.
      * injection Heq as <- Heq. by apply (IH Hs before).
  - intros H. destruct (exec s) as [c|] eqn:E; [|done].
    apply exec_Some in E as (before & s' & Heq & Hm & _).
    rewrite (H before s' Heq) in Hm. done.
Qed.

(** The capture is never the empty string. *)
Lemma exec_nonempty s : exec s ≠ Some [].
Proof.
  intros (before & s' & _ & Hm & _)%exec_Some.
  apply matchHere_Some in Hm as (a & b & rest & Hm & _).
  by destruct Hm as (_ & _ & _ & _ & _ & Hc & _).
Qed.

Lemma exec_firstMatch text c : exec text = Some c → firstMatch text c.
Proof.
  intros (before & s & -> & Hm & Hleft)%exec_Some.
  apply matchHere_Some in Hm as (a & b & rest & Hm & Hstop & Hgreedy).
  exists before, s, a, b, rest. split_and!; [done..|].
  intros before' s' Heq Hlen. by apply matchHere_None, (Hleft before').
Qed.

Lemma app_eq_length {A} (l1 l2 k1 k2 : list A) :
  l1 ++ k1 = l2 ++ k2 → length l1 = length l2 → l1 = l2 ∧ k1 = k2.
Proof.
  revert l2. induction l1 as [|x l1 IH]; intros [|y l2] Heq Hlen;
    simpl in *; try done.
  injection Heq as -> Heq. injection Hlen as Hlen.
  destruct (IH l2 Heq Hlen) as [-> ->]. done.
Qed.

Lemma maximal_run_unique (P : N → bool) m m' r r' :
  Forall P m → Forall P m' →
  match r with [] => True | x :: _ => P x = false end →
  match r' with [] => True | x :: _ => P x = false end →
  m ++ r = m' ++ r' → m = m'.
Proof.
  revert m'. induction m as [|c m IH]; intros [|c' m'] Hm Hm' Hr Hr' Heq;
    simpl in *.
  - done.
  - subst r. inversion Hm' as [|? ? Hc]; subst. rewrite Hr in Hc. done.
  - subst r'. inversion Hm as [|? ? Hc]; subst. rewrite Hr' in Hc. done.
  - injection Heq as -> Heq. f_equal.
    inversion Hm; inversion Hm'; subst. by apply (IH m').
Qed.

Lemma firstMatch_unique text c c' :
  firstMatch text c → firstMatch text c' → c = c'.
Proof.
  intros (p1 & s1 & a1 & b1 & r1 & E1 & M1 & S1 & G1 & L1)
         (p2 & s2 & a2 & b2 & r2 & E2 & M2 & S2 & G2 & L2).
  assert (length p1 = length p2) as Hlen.
  { destruct (Nat.lt_trichotomy (length p1) (length p2)) as [Hlt|[?|Hlt]];
      [|done|].
    - by destruct (L2 p1 s1 E1 Hlt a1 b1 c r1).
    - by destruct (L1 p2 s2 E2 Hlt a2 b2 c' r2). }
  subst text. destruct (app_eq_length _ _ _ _ E2 Hlen) as [-> ->].
  destruct (G1 _ _ _ _ M2) as [-> Hb2]. destruct (G2 _ _ _ _ M1) as [_ Hb1].
  destruct M1 as (Hs & _ & _ & _ & _ & _ & Hc1).
  destruct M2 as (Hs' & _ & _ & _ & _ & _ & Hc2).
  rewrite Hs in Hs'. do 3 apply app_inv_head in Hs'.
  apply app_eq_length in Hs' as [-> Hs']; [|lia].
  by apply (maximal_run_unique classCron _ _ r1 r2).
Qed.

Lemma exec_iff_firstMatch text c : exec text = Some c ↔ firstMatch text c.
Proof.
  split; [apply exec_firstMatch|].
  intros Hfirst. destruct (exec text) as [c'|] eqn:E.
  - f_equal. apply exec_firstMatch in E. by apply (firstMatch_unique text).
  - destruct Hfirst as (before & s & a & b & rest & Heq & Hm & _).
    apply matchHere_complete in Hm as [x Hx].
    rewrite (proj1 (exec_None text) E before s Heq) in Hx. done.
Qed.

Lemma app_eq_shorter {A} (l1 l2 k1 k2 : list A) :
  l1 ++ k1 = l2 ++ k2 → (length l1 < length l2)%nat →
  ∃ d, d ≠ [] ∧ l2 = l1 ++ d ∧ k1 = d ++ k2.
Proof.
  revert l2. induction l1 as [|x l1 IH]; intros [|y l2] Heq Hlen;
    simpl in *; try lia.
  - exists (y :: l2). by subst.
  - injection Heq as -> Heq.
    destruct (IH l2 Heq) as (d & Hd & -> & ->); [lia|]. by exists d.
Qed.

Lemma prefix_within {A} (x y z t : list A) :
  x ++ t = y ++ z → (length x ≤ length y)%nat → ∃ q, y = x ++ q.
Proof.
  revert y. induction x as [|c x IH]; intros y Heq Hlen; [by exists y|].
  destruct y as [|d y]; simpl in *; [lia|]. injection Heq as -> Heq.
  destruct (IH y Heq) as [q ->]; [lia|]. by exists q.
Qed.

(** The block of the round trip is found wherever it stands, as long as
    the word schedule does not occur before it. *)
Lemma exec_round_trip_block before after :
  includes (before ++ units "schedul") (units "schedule") = false →
  exec (before
          ++ units ("schedule:" ++ nl ++ "  - cron: " ++ dq ++ "0 0 * * *" ++ dq)
          ++ after)
  = Some (units "0 0 * * *").
Proof.
  intros Hfresh. apply exec_iff_firstMatch.
  exists before, (units ("schedule:" ++ nl ++ "  - cron: " ++ dq ++ "0 0 * * *" ++ dq) ++ after),
    (units (":" ++ nl ++ "  - ")), (units (": " ++ dq)), (units dq ++ after).
  split_and!.
  - done.
  - split_and!; try done; by repeat constructor.
  - reflexivity.
  - intros a' b' c' rest' (Heq & Ha' & Hca' & Hb' & Hcb' & Hc' & Hcc').
    change (units ("schedule:" ++ nl ++ "  - cron: " ++ dq ++ "0 0 * * *" ++ dq) ++ after)
      with (units "schedule" ++ units (":" ++ nl ++ "  - ")
              ++ (99 :: [114; 111; 110] ++ units (": " ++ dq ++ "0 0 * * *" ++ dq) ++ after))
      in Heq.
    apply app_inv_head in Heq.
    change (units "cron") with (99 :: [114; 111; 110]) in Heq. simpl in Heq.
    assert (a' = units (":" ++ nl ++ "  - ")) as ->.
    { eapply (run_then_outsider classSep);
        [done|by repeat constructor| | |symmetry; exact Heq]; by vm_compute. }
    split; [done|].
    apply (app_inv_head (units (":" ++ nl ++ "  - "))) in Heq.
    injection Heq as Heq.
    destruct b' as [|x1 [|x2 [|x3 [|x4 b']]]]; simpl; try lia.
    exfalso. simpl in Heq. injection Heq as _ _ _ E4 _.
    inversion Hcb' as [|? ? _ H1]; subst. inversion H1 as [|? ? _ H2]; subst.
    inversion H2 as [|? ? _ H3]; subst. inversion H3 as [|? ? H4 _]; subst.
    by vm_compute in H4.
  - intros before' s' Heq Hlen a' b' c' rest' (-> & _).
    symmetry in Heq.
    apply app_eq_shorter in Heq as (d & Hd & -> & Heq); [|done].
    change (units ("schedule:" ++ nl ++ "  - cron: " ++ dq ++ "0 0 * * *" ++ dq) ++ after)
      with (units "schedul"
              ++ (units ("e:" ++ nl ++ "  - cron: " ++ dq ++ "0 0 * * *" ++ dq) ++ after))
      in Heq.
    rewrite (app_assoc d) in Heq.
    apply prefix_within in Heq as [q Hq].
    + assert (includes ((before' ++ d) ++ units "schedul") (units "schedule")
              = true) as Hin.
      { apply includes_spec. exists before', q.
        by rewrite <-(app_assoc before'), Hq. }
      congruence.
    + rewrite length_app. destruct d; [done|]. simpl. lia.
Qed.



(** ** Loops and plain objects *)

Lemma forEach_app {A S} (body : S → A → outcome S) (state : S) l1 l2 :
  forEach body state (l1 ++ l2)
  = match forEach body state l1 with
    | Resolved state' => forEach body state' l2
    | Rejected => Rejected
    end.
Proof.
  revert state. induction l1 as [|x l1 IH]; intros state; simpl; [done|].
  by destruct (body state x).
Qed.

Lemma forEach_snoc {A S} (body : S → A → outcome S) (state : S) l x :
  forEach body state (l ++ [x])
  = match forEach body state l with
    | Resolved state' => body state' x
    | Rejected => Rejected
    end.
Proof.
  rewrite forEach_app. destruct (forEach body state l); [|done].
  simpl. by destruct (body a x).
Qed.

Lemma filter_unique_name {A} (P : A → Prop) `{∀ x, Decision (P x)}
    (f : A → jsstring) (l : list A) x :
  NoDup (f <$> l) → (∀ y, P y ↔ f y = f x) → x ∈ l →
  filter P l = [x].
Proof.
  intros Hnd HP Hx. induction l as [|y l IH]; [by apply not_elem_of_nil in Hx|].
  rewrite fmap_cons in Hnd. apply NoDup_cons in Hnd as [Hy Hnd].
  assert (∀ z, z ∈ l → f z ≠ f y) as Hfresh.
  { intros z Hz Heq. apply Hy. rewrite <-Heq. by apply list_elem_of_fmap_2. }
  apply elem_of_cons in Hx as [->|Hx].
  - rewrite filter_cons_True; [|by apply HP]. f_equal.
    destruct (filter P l) as [|z l'] eqn:E; [done|]. exfalso.
    assert (z ∈ filter P l) as Hz by (rewrite E; by left).
    apply list_elem_of_filter in Hz as [Hz%HP Hin]. by apply (Hfresh z).
  - rewrite filter_cons_False; [by apply IH|].
    intros Hy'%HP. by apply (Hfresh x).
Qed.

Lemma filter_none {A} (P : A → Prop) `{∀ x, Decision (P x)} (l : list A) :
  (∀ x, x ∈ l → ¬ P x) → filter P l = [].
Proof.
  intros Hno. destruct (filter P l) as [|x l'] eqn:E; [done|]. exfalso.
  assert (x ∈ filter P l) as Hx by (rewrite E; by left).
  apply list_elem_of_filter in Hx as [HP Hx]. by apply (Hno x).
Qed.

Lemma reachesAccessor_key o k : reachesAccessor o k = true → k = protoKey.
Proof.
  unfold reachesAccessor. intros H. apply andb_prop in H as [H _].
  apply andb_prop in H as [H _]. by apply bool_decide_eq_true in H.
Qed.

Lemma reachesAccessor_other o k : k ≠ protoKey → reachesAccessor o k = false.
Proof.
  intros Hne. unfold reachesAccessor. by rewrite bool_decide_eq_false_2.
Qed.

Lemma assignText_own o k t n :
  n ≠ protoKey →
  own (assignText o k t) !! n
  = if decide (k = n) then Some (toProperty t) else own o !! n.
Proof.
  intros Hn. unfold assignText.
  destruct (reachesAccessor o k) eqn:E.
  - apply reachesAccessor_key in E as ->.
    destruct (decide (protoKey = n)) as [<-|_]; [done|]. by destruct t.
  - simpl. destruct (decide (k = n)) as [->|Hne].
    + by rewrite lookup_insert_eq.
    + by rewrite lookup_insert_ne.
Qed.

Lemma assignComposed_own o k w n :
  n ≠ protoKey →
  own (assignComposed o k w) !! n
  = if decide (k = n) then Some (Composed w) else own o !! n.
Proof.
  intros Hn. unfold assignComposed.
  destruct (reachesAccessor o k) eqn:E.
  - apply reachesAccessor_key in E as ->.
    by destruct (decide (protoKey = n)) as [<-|_].
  - simpl. destruct (decide (k = n)) as [->|Hne].
    + by rewrite lookup_insert_eq.
    + by rewrite lookup_insert_ne.
Qed.

(** ** The dictionary of definitions *)

(** What an entry whose object is not [null] stores. *)
Lemma storeEntry_Resolved result e result' :
  storeEntry result e = Resolved result' ↔
  ∃ t, objectText (object e) = Some t ∧
       result' = assignText result (entryName e) t.
Proof.
  unfold storeEntry. destruct (objectText (object e)) as [t|]; split.
  - intros [= <-]. by exists t.
  - by intros (? & [= <-] & ->).
  - done.
  - by intros (? & ? & _).
Qed.

Lemma filesOf_Rejected entries :
  filesOf entries = Rejected ↔ ∃ e, e ∈ entries ∧ object e = NoObject.
Proof.
  unfold filesOf. induction entries as [|e entries IH] using rev_ind.
  - split; [done|]. by intros (e & ?%not_elem_of_nil & _).
  - rewrite forEach_snoc.
    destruct (forEach storeEntry emptyObject entries) as [files|] eqn:E.
    + unfold storeEntry. destruct (object e) eqn:Ho; simpl; split; try done.
      * intros (x & [Hx| ->%list_elem_of_singleton]%elem_of_app & Hox).
        -- assert (@Resolved jsobject files = Rejected); [|done].
           apply IH. by exists x.
        -- congruence.
      * intros (x & [Hx| ->%list_elem_of_singleton]%elem_of_app & Hox).
        -- assert (@Resolved jsobject files = Rejected); [|done].
           apply IH. by exists x.
        -- congruence.
      * intros (x & [Hx| ->%list_elem_of_singleton]%elem_of_app & Hox).
        -- assert (@Resolved jsobject files = Rejected); [|done].
           apply IH. by exists x.
        -- congruence.
      * intros _. exists e. split; [|done]. apply elem_of_app. right. by left.
    + split; [|done]. intros _. destruct (proj1 IH eq_refl) as (x & Hx & Hox).
      exists x. split; [|done]. apply elem_of_app. by left.
Qed.

(** The dictionary after the loop: its prototype is [Object.prototype] or
    [null]; under a name other than [__proto__] it holds what the last
    entry of that name stored; and whatever it holds was stored by an
    entry of that name. *)
Lemma filesOf_spec entries files :
  filesOf entries = Resolved files →
  (proto files = ObjectPrototype ∨ proto files = NullPrototype) ∧
  (∀ n, n ≠ protoKey →
        own files !! n
        = (last (filter (λ e, entryName e = n) entries)
             ≫= λ e, toProperty <$> objectText (object e))) ∧
  (∀ n v, own files !! n = Some v →
          ∃ e t, e ∈ entries ∧ entryName e = n ∧
                 objectText (object e) = Some t ∧ v = toProperty t).
Proof.
  unfold filesOf. revert files.
  induction entries as [|e entries IH] using rev_ind; intros files.
  - intros [= <-]. split_and!; [by left|done|]. intros n v. simpl.
    by rewrite lookup_empty.
  - rewrite forEach_snoc.
    destruct (forEach storeEntry emptyObject entries) as [before|]; [|done].
    destruct (IH before eq_refl) as (Hproto & Hown & Hfrom).
    intros (t & Ht & ->)%storeEntry_Resolved. split_and!.
    + unfold assignText. destruct (reachesAccessor before (entryName e));
        [|done]. destruct t; simpl; auto.
    + intros n Hn. rewrite assignText_own, filter_app, filter_cons, filter_nil;
        [|done].
      destruct (decide (entryName e = n)) as [Heq|Hne].
      * rewrite last_snoc. simpl. by rewrite Ht.
      * rewrite app_nil_r. by apply Hown.
    + intros n v Hv. unfold assignText in Hv.
      destruct (reachesAccessor before (entryName e)) eqn:E.
      * assert (own before !! n = Some v) as Hb by (by destruct t).
        destruct (Hfrom n v Hb) as (x & t' & Hx & ?).
        exists x, t'. split; [|done]. apply elem_of_app. by left.
      * simpl in Hv. destruct (decide (entryName e = n)) as [Heq|Hne].
        -- subst n. rewrite lookup_insert_eq in Hv. injection Hv as <-.
           exists e, t. split_and!; [|done..]. apply elem_of_app. right.
           by left.
        -- rewrite lookup_insert_ne in Hv; [|done].
           destruct (Hfrom n v Hv) as (x & t' & Hx & ?).
           exists x, t'. split; [|done]. apply elem_of_app. by left.
Qed.

(** With distinct entry names nothing is ever stored under [__proto__]:
    the one entry of that name reaches the accessor. *)
Lemma filesOf_proto_key entries files :
  NoDup (entryName <$> entries) →
  filesOf entries = Resolved files → own files !! protoKey = None.
Proof.
  intros Hnd Hfiles.
  destruct (own files !! protoKey) as [v|] eqn:Hv; [|done]. exfalso.
  revert files Hfiles v Hv. unfold filesOf.
  induction entries as [|e entries IH] using rev_ind; intros files.
  - intros [= <-] v. simpl. by rewrite lookup_empty.
  - rewrite forEach_snoc.
    destruct (forEach storeEntry emptyObject entries) as [before|] eqn:Hb;
      [|done].
    rewrite fmap_app in Hnd. apply NoDup_app in Hnd as (Hnd & Hfresh & _).
    intros (t & Ht & ->)%storeEntry_Resolved v Hv.
    destruct (own before !! protoKey) as [v'|] eqn:Hv';
      [by apply (IH Hnd before eq_refl v')|].
    unfold assignText in Hv.
    destruct (reachesAccessor before (entryName e)) eqn:E.
    + assert (own before !! protoKey = Some v) by (by destruct t). congruence.
    + simpl in Hv. destruct (decide (entryName e = protoKey)) as [Heq|Hne].
      * unfold reachesAccessor in E. rewrite Heq in E.
        rewrite bool_decide_eq_true_2 in E; [|done].
        rewrite bool_decide_eq_true_2 in E; [|done]. simpl in E.
        destruct (filesOf_spec entries before Hb) as (Hproto & _).
        destruct Hproto as [Hp|Hp]; rewrite Hp in E; [done|].
        (* the prototype is gone only after an entry of this name *)
        assert (∃ x, x ∈ entries ∧ entryName x = protoKey) as (x & Hx & Hxn).
        { clear -Hb Hp. revert before Hb Hp. unfold filesOf.
          induction entries as [|y entries IH] using rev_ind; intros before.
          - by intros [= <-].
          - rewrite forEach_snoc.
            destruct (forEach storeEntry emptyObject entries) as [b0|];
              [|done].
            intros (t & Ht & ->)%storeEntry_Resolved Hp.
            unfold assignText in Hp.
            destruct (reachesAccessor b0 (entryName y)) eqn:E.
            + exists y. split; [apply elem_of_app; right; by left|].
              by apply reachesAccessor_key in E.
            + simpl in Hp. destruct (IH b0 eq_refl Hp) as (x & Hx & Hxn).
              exists x. split; [|done]. apply elem_of_app. by left. }
        apply (Hfresh protoKey).
        -- rewrite <-Hxn. by apply list_elem_of_fmap_2.
        -- rewrite <-Heq. simpl. by left.
      * rewrite lookup_insert_ne in Hv; [|done]. congruence.
Qed.

Lemma get_files_Text files n yaml :
  proto files = ObjectPrototype ∨ proto files = NullPrototype →
  get files n = Text yaml ↔ own files !! n = Some (Text yaml).
Proof.
  intros Hproto. unfold get. destruct (own files !! n) as [v|].
  - split; [by intros ->|by intros [= ->]].
  - split; [|done]. destruct Hproto as [-> | ->]; simpl; [|done].
    unfold fromObjectPrototype. by case_bool_decide.
Qed.

(** ** The merge loop *)

Lemma aggregated_empty : aggregated emptyObject.
Proof. split_and!; [done|done|]. intros n v. simpl. by rewrite lookup_empty. Qed.

Lemma aggregated_reaches details :
  aggregated details → reachesAccessor details protoKey = true.
Proof.
  intros (Hown & Hproto & _). unfold reachesAccessor.
  rewrite !bool_decide_eq_true_2; [|done..]. simpl.
  by destruct (proto details).
Qed.

Lemma assignComposed_aggregated details k w :
  aggregated details →
  aggregated (assignComposed details k w) ∧
  ∀ n, slot (assignComposed details k w) n
       = if decide (k = n) then Some w else slot details n.
Proof.
  intros Hagg. pose proof Hagg as (Hown & Hproto & Hvals).
  unfold assignComposed. destruct (decide (k = protoKey)) as [->|Hk].
  - rewrite (aggregated_reaches details Hagg). split.
    + by split_and!.
    + intros n. unfold slot. simpl. destruct (decide (protoKey = n)) as [<-|Hn].
      * by rewrite bool_decide_eq_true_2.
      * rewrite bool_decide_eq_false_2; done.
  - rewrite (reachesAccessor_other details k Hk). split.
    + split_and!; simpl; [by rewrite lookup_insert_ne|done|].
      intros n v. destruct (decide (k = n)) as [->|Hn].
      * rewrite lookup_insert_eq. intros [= <-]. by exists w.
      * rewrite lookup_insert_ne; [|done]. apply Hvals.
    + intros n. unfold slot. simpl. destruct (decide (k = n)) as [<-|Hn].
      * rewrite bool_decide_eq_false_2; [|done]. by rewrite lookup_insert_eq.
      * by rewrite lookup_insert_ne.
Qed.

Lemma mergeLoop_snoc workflows workflow files :
  mergeLoop (workflows ++ [workflow]) files
  = match mergeLoop workflows files with
    | Resolved details => mergeStep files details workflow
    | Rejected => Rejected
    end.
Proof. apply forEach_snoc. Qed.

Lemma expected_snoc workflows workflow files n :
  expected (workflows ++ [workflow]) files n
  = match get files n with
    | Text yaml =>
        if decide (name workflow = n) then Some (workflow, detailsOf yaml)
        else expected workflows files n
    | _ => None
    end.
Proof.
  unfold expected, named. rewrite filter_app, filter_cons, filter_nil.
  destruct (get files n); try done.
  destruct (decide (name workflow = n)).
  - by rewrite last_snoc.
  - by rewrite app_nil_r.
Qed.

(** What the loop leaves when it does not throw. *)
Lemma mergeLoop_spec workflows files details :
  mergeLoop workflows files = Resolved details →
  aggregated details ∧ ∀ n, slot details n = expected workflows files n.
Proof.
  revert details.
  induction workflows as [|w workflows IH] using rev_ind; intros details.
  - intros [= <-]. split; [apply aggregated_empty|]. intros n.
    unfold slot, expected. simpl. rewrite lookup_empty.
    case_bool_decide; by destruct (get files n).
  - rewrite mergeLoop_snoc.
    destruct (mergeLoop workflows files) as [before|]; [|done].
    destruct (IH before eq_refl) as [Hagg Hslot].
    unfold mergeStep. destruct (get files (name w)) as [| | | yaml | |] eqn:E;
      try done.
    + intros [= <-]. split; [done|]. intros n. rewrite expected_snoc, Hslot.
      unfold expected. destruct (decide (name w = n)) as [<-|Hne].
      * by rewrite E.
      * by destruct (get files n).
    + intros [= <-].
      destruct (assignComposed_aggregated before (name w)
                  (w, {| schedule := exec yaml;
                         manuallyDispatchable :=
                           includes yaml (units "workflow_dispatch:") |})
                  Hagg) as [Hagg' Hslot'].
      split; [done|]. intros n. rewrite Hslot', expected_snoc, Hslot.
      destruct (decide (name w = n)) as [<-|Hne].
      * by rewrite E.
      * unfold expected. by destruct (get files n).
Qed.

(** The loop throws exactly when the name of some summary finds something
    that is neither [undefined] nor a string. *)
Lemma mergeLoop_Rejected workflows files :
  mergeLoop workflows files = Rejected ↔
  ∃ w, w ∈ workflows ∧ throwsOn (get files (name w)) = true.
Proof.
  induction workflows as [|w workflows IH] using rev_ind.
  - split; [done|]. by intros (w & ?%not_elem_of_nil & _).
  - rewrite mergeLoop_snoc.
    destruct (mergeLoop workflows files) as [before|] eqn:E.
    + assert (∀ x, x ∈ workflows → throwsOn (get files (name x)) = false)
        as Hquiet.
      { intros x Hx. destruct (throwsOn (get files (name x))) eqn:Ht; [|done].
        assert (@Resolved jsobject before = Rejected); [|done].
        apply IH. by exists x. }
      unfold mergeStep. split.
      * intros Hrej. exists w. split; [apply elem_of_app; right; by left|].
        by destruct (get files (name w)).
      * intros (x & [Hx| ->%list_elem_of_singleton]%elem_of_app & Ht).
        -- by rewrite (Hquiet x Hx) in Ht.
        -- by destruct (get files (name w)).
    + split; [|done]. intros _. destruct (proj1 IH eq_refl) as (x & Hx & Ht).
      exists x. split; [|done]. apply elem_of_app. by left.
Qed.

Lemma aggregated_eq d d' :
  aggregated d → aggregated d' → (∀ n, slot d n = slot d' n) → d = d'.
Proof.
  intros (Hown & Hproto & Hvals) (Hown' & Hproto' & Hvals') Hslot.
  destruct d as [o p], d' as [o' p']. simpl in *.
  assert (o = o') as ->.
  { apply map_eq. intros n. destruct (decide (n = protoKey)) as [->|Hn];
      [congruence|].
    specialize (Hslot n). unfold slot in Hslot. simpl in Hslot.
    rewrite bool_decide_eq_false_2 in Hslot; [|done].
    destruct (o !! n) as [v|] eqn:E, (o' !! n) as [v'|] eqn:E'; try done.
    - destruct (Hvals n v E) as [w ->], (Hvals' n v' E') as [w' ->].
      congruence.
    - by destruct (Hvals n v E) as [w ->].
    - by destruct (Hvals' n v' E') as [w' ->]. }
  f_equal. specialize (Hslot protoKey). unfold slot in Hslot. simpl in Hslot.
  destruct p, p'; congruence.
Qed.

Lemma aggregated_own details n w :
  aggregated details →
  own details !! n = Some (Composed w) ↔ n ≠ protoKey ∧ slot details n = Some w.
Proof.
  intros (Hown & _ & Hvals). unfold slot. split.
  - intros Hn. assert (n ≠ protoKey) as Hne by congruence.
    split; [done|]. rewrite bool_decide_eq_false_2; [|done]. by rewrite Hn.
  - intros [Hne Hs]. rewrite bool_decide_eq_false_2 in Hs; [|done].
    destruct (own details !! n) as [[]|]; congruence.
Qed.

Lemma aggregated_get details n w :
  aggregated details →
  get details n = Composed w ↔ slot details n = Some w.
Proof.
  intros (Hown & Hproto & Hvals). unfold get, slot.
  destruct (decide (n = protoKey)) as [->|Hne].
  - rewrite bool_decide_eq_true_2; [|done]. rewrite Hown.
    destruct (proto details) as [| |w0]; simpl.
    + split; [|done]. unfold fromObjectPrototype. by case_bool_decide.
    + done.
    + split; [by intros [= ->]|by intros [= ->]].
  - rewrite bool_decide_eq_false_2; [|done].
    destruct (own details !! n) as [v|] eqn:E.
    + destruct (Hvals n v E) as [w0 ->].
      split; [by intros [= ->]|by intros [= ->]].
    + split; [|done]. destruct (proto details) as [| |w0]; simpl.
      * unfold fromObjectPrototype. by case_bool_decide.
      * done.
      * unfold composedField, fromObjectPrototype.
        repeat case_bool_decide; try done. by destruct (schedule w0.2).
Qed.

Lemma expected_Some workflows files n w :
  expected workflows files n = Some w ↔
  ∃ yaml, get files n = Text yaml ∧ last (named n workflows) = Some w.1 ∧
          w.2 = detailsOf yaml.
Proof.
  unfold expected. destruct (get files n) as [| | |yaml| |];
    try (split; [done|by intros (? & ? & _)]).
  destruct (last (named n workflows)) as [w0|]; simpl; split.
  - intros [= <-]. by exists yaml.
  - intros (? & [= <-] & [= ->] & ?). destruct w as [? ?]. simpl in *.
    by subst.
  - done.
  - by intros (? & _ & ? & _).
Qed.

(** A record of the aggregation comes from a summary of its name and from
    the text the definitions hold under that name. *)
Lemma mergeLoop_Some workflows files details n w :
  mergeLoop workflows files = Resolved details →
  own details !! n = Some (Composed w) →
  ∃ yaml, get files n = Text yaml ∧ last (named n workflows) = Some w.1 ∧
          w.2 = detailsOf yaml.
Proof.
  intros [Hagg Hslot]%mergeLoop_spec Hown.
  apply (aggregated_own details n w Hagg) in Hown as [_ Hs].
  rewrite Hslot in Hs. by apply expected_Some.
Qed.

Lemma last_named_Some n workflows :
  is_Some (last (named n workflows)) ↔ n ∈ name <$> workflows.
Proof.
  unfold named. rewrite list_elem_of_fmap. split.
  - intros [w Hw]. apply last_Some_elem_of in Hw.
    apply list_elem_of_filter in Hw as [<- Hw]. by exists w.
  - intros (w & -> & Hw).
    assert (w ∈ filter (λ workflow, name workflow = name w) workflows) as Hin
      by by apply list_elem_of_filter.
    destruct (filter _ workflows) as [|x l] using rev_ind.
    + by apply not_elem_of_nil in Hin.
    + rewrite last_snoc. by eexists.
Qed.

Lemma mergeLoop_get workflows files details n w :
  mergeLoop workflows files = Resolved details →
  get details n = Composed w →
  ∃ yaml, get files n = Text yaml ∧ last (named n workflows) = Some w.1 ∧
          w.2 = detailsOf yaml.
Proof.
  intros [Hagg Hslot]%mergeLoop_spec Hget.
  apply (aggregated_get details n w Hagg) in Hget.
  rewrite Hslot in Hget. by apply expected_Some.
Qed.

(** C1. A summary whose name is a member of [Object.prototype] and has no
    definition is not dropped: the read finds the inherited member, the
    test against [undefined] lets it pass and the call of its [includes]
    throws, so the whole aggregation rejects; the listed path
    .github/workflows/constructor with an empty directory does it. When
    the loop does not throw, the own keys of the aggregation other than
    [__proto__] are exactly the names that occur among the summaries and
    hold a text in the definitions. *)
Theorem inherited_name_breaks_the_join :
  getWorkflowsDetails
    (Resolved [ {| path := units ".github/workflows/constructor";
                   state := units "active" |} ])
    (Resolved (Some [])) = Rejected ∧
  (∀ workflows workflowFiles w,
     w ∈ workflows →
     name w ∈ objectPrototypeNames →
     own workflowFiles !! name w = None →
     proto workflowFiles = ObjectPrototype →
     mergeLoop workflows workflowFiles = Rejected) ∧
  (∀ workflows workflowFiles details n,
     mergeLoop workflows workflowFiles = Resolved details →
     n ≠ protoKey →
     n ∈ dom (own details) ↔
     n ∈ name <$> workflows ∧ ∃ yaml, get workflowFiles n = Text yaml).
Proof.
  split_and!.
  - vm_compute. reflexivity.
  - intros workflows files w Hw Hmember Hown Hproto.
    apply mergeLoop_Rejected. exists w. split; [done|].
    unfold get. rewrite Hown, Hproto. simpl. unfold fromObjectPrototype.
    by rewrite bool_decide_eq_true_2.
  - intros workflows files details n Hloop Hn.
    destruct (mergeLoop_spec _ _ _ Hloop) as [Hagg Hslot].
    rewrite elem_of_dom, <-last_named_Some. split.
    + intros [v Hv]. pose proof Hagg as (_ & _ & Hvals).
      destruct (Hvals n v Hv) as [w ->].
      apply (aggregated_own details n w Hagg) in Hv as [_ Hs].
      rewrite Hslot in Hs.
      apply expected_Some in Hs as (yaml & Hget & Hlast & _).
      split; [by eexists|by exists yaml].
    + intros [[w Hlast] [yaml Hget]].
      assert (slot details n = Some (w, detailsOf yaml)) as Hs.
      { rewrite Hslot. unfold expected. by rewrite Hget, Hlast. }
      exists (Composed (w, detailsOf yaml)).
      by apply (aggregated_own details n _ Hagg).
Qed.

Lemma inherited_name_breaks_the_join_witness :
  mergeLoop [ {| name := units "toString"; isEnabled := true |} ]
    emptyObject = Rejected.
Proof.
  apply (proj1 (proj2 inherited_name_breaks_the_join)
           [ {| name := units "toString"; isEnabled := true |} ]
           emptyObject {| name := units "toString"; isEnabled := true |}).
  - by left.
  - apply (bool_decide_unpack _). vm_compute. exact I.
  - reflexivity.
  - reflexivity.
Defined.

(** C4. The flag of a record is true exactly when the text of its
    definition contains the substring workflow_dispatch followed by a
    colon, whatever stands before or after it. *)
Theorem dispatchable_iff_substring
    (workflows : list Workflow) (workflowFiles details : jsobject)
    (n : jsstring) (w : ComposedWorkflow) :
  mergeLoop workflows workflowFiles = Resolved details →
  get details n = Composed w →
  ∃ workflowYaml,
    get workflowFiles n = Text workflowYaml ∧
    (manuallyDispatchable w.2 = true ↔
     ∃ before after,
       workflowYaml = before ++ units "workflow_dispatch:" ++ after).
Proof.
  intros Hloop (yaml & Hget & _ & ->)%(mergeLoop_get _ _ _ _ _ Hloop).
  exists yaml. split; [done|]. simpl. apply includes_spec.
Qed.

Lemma dispatchable_iff_substring_witness :
  ∃ workflowYaml,
    get (oneFile (units "ci.yml") (units "on:   workflow_dispatch: {}"))
        (units "ci.yml") = Text workflowYaml ∧
    (true = true ↔
     ∃ before after,
       workflowYaml = before ++ units "workflow_dispatch:" ++ after).
Proof.
  apply (dispatchable_iff_substring
           [ {| name := units "ci.yml"; isEnabled := true |} ]
           (oneFile (units "ci.yml") (units "on:   workflow_dispatch: {}"))
           {| own := {[ units "ci.yml" :=
                          Composed
                            ({| name := units "ci.yml"; isEnabled := true |},
                             {| schedule := None;
                                manuallyDispatchable := true |}) ]};
              proto := ObjectPrototype |}
           (units "ci.yml")
           ({| name := units "ci.yml"; isEnabled := true |},
            {| schedule := None; manuallyDispatchable := true |})).
  - vm_compute. reflexivity.
  - vm_compute. reflexivity.
Defined.

Lemma lookup_map_to_list_once `{Countable K} {A} (m : gmap K A) k v :
  m !! k = Some v →
  filter (λ kv, kv.1 = k) (map_to_list m) = [(k, v)].
Proof.
  intros Hk.
  assert (NoDup (filter (λ kv : K * A, kv.1 = k) (map_to_list m))) as Hnd
    by apply NoDup_filter, NoDup_map_to_list.
  assert (∀ kv, kv ∈ filter (λ kv : K * A, kv.1 = k) (map_to_list m)
                ↔ kv = (k, v)) as Hin.
  { intros [k' v']. rewrite list_elem_of_filter, elem_of_map_to_list. simpl.
    split; [intros [-> ?]; congruence | intros [= -> ->]; done]. }
  destruct (filter _ (map_to_list m)) as [|x [|y l]].
  - specialize (proj2 (Hin (k, v)) eq_refl). by intros ?%not_elem_of_nil.
  - f_equal. apply Hin. by left.
  - exfalso. assert (x = y) as ->.
    { rewrite (proj1 (Hin x)), (proj1 (Hin y)); [done| |by left].
      right. by left. }
    apply NoDup_cons in Hnd as [Hx _]. apply Hx. by left.
Qed.

Lemma lookup_map_to_list_none `{Countable K} {A} (m : gmap K A) k :
  m !! k = None → filter (λ kv, kv.1 = k) (map_to_list m) = [].
Proof.
  intros Hk. apply filter_none. intros [k' v] Hin%elem_of_map_to_list Heq.
  simpl in Heq. congruence.
Qed.

(** C10. When several summaries share a name that has a definition and the
    loop does not throw on another summary, the aggregation gives one
    record under that name, and it is the last of those summaries, name and
    enabled flag as they are, next to the details of the definition. It is
    the only own property of that name; under [__proto__] it is the
    prototype and there is no own property. *)
Theorem last_summary_wins
    (earlier later : list Workflow) (workflow : Workflow)
    (workflowFiles details : jsobject) (workflowYaml : jsstring) :
  get workflowFiles (name workflow) = Text workflowYaml →
  name workflow ∉ name <$> later →
  mergeLoop (earlier ++ workflow :: later) workflowFiles = Resolved details →
  let record :=
    (workflow,
     {| schedule := exec workflowYaml;
        manuallyDispatchable :=
          includes workflowYaml (units "workflow_dispatch:") |}) in
  get details (name workflow) = Composed record ∧
  name record.1 = name workflow ∧
  isEnabled record.1 = isEnabled workflow ∧
  filter (λ kv, kv.1 = name workflow) (map_to_list (own details))
  = if bool_decide (name workflow = protoKey) then []
    else [(name workflow, Composed record)].
Proof.
  intros Hget Hlater [Hagg Hslot]%mergeLoop_spec record.
  assert (slot details (name workflow) = Some record) as Hs.
  { rewrite Hslot. unfold expected, named. rewrite Hget.
    rewrite filter_app, filter_cons_True; [|done].
    rewrite (filter_none _ later).
    - by rewrite last_snoc.
    - intros x Hx Hname. apply Hlater. rewrite <-Hname.
      by apply list_elem_of_fmap_2. }
  split_and!; [by apply aggregated_get|done|done|].
  case_bool_decide as Hk.
  - apply lookup_map_to_list_none. rewrite Hk. by destruct Hagg.
  - apply lookup_map_to_list_once. by apply aggregated_own.
Qed.

Lemma last_summary_wins_witness :
  get {| own := {[ units "ci.yml" :=
                     Composed
                       ({| name := units "ci.yml"; isEnabled := false |},
                        {| schedule := None;
                           manuallyDispatchable := false |}) ]};
         proto := ObjectPrototype |} (units "ci.yml")
  = Composed ({| name := units "ci.yml"; isEnabled := false |},
              {| schedule := None; manuallyDispatchable := false |}).
Proof.
  refine (proj1 (last_summary_wins
                   [ {| name := units "ci.yml"; isEnabled := true |} ] []
                   {| name := units "ci.yml"; isEnabled := false |}
                   (oneFile (units "ci.yml") (units "on: push")) _
                   (units "on: push") _ _ _)).
  - vm_compute. reflexivity.
  - simpl. apply not_elem_of_nil.
  - vm_compute. reflexivity.
Defined.

(** ** The fetchers *)

Lemma filesOf_Text_NoDup entries files n yaml :
  NoDup (entryName <$> entries) →
  filesOf entries = Resolved files →
  get files n = Text yaml ↔
  n ≠ protoKey ∧
  {| entryName := n; object := Blob yaml |} ∈ entries.
Proof.
  intros Hnd Hfiles.
  destruct (filesOf_spec entries files Hfiles) as (Hproto & Hown & Hfrom).
  rewrite (get_files_Text files n yaml Hproto). split.
  - intros Hv. assert (n ≠ protoKey) as Hn.
    { intros ->. rewrite (filesOf_proto_key entries files Hnd Hfiles) in Hv.
      done. }
    split; [done|].
    destruct (Hfrom n _ Hv) as (e & t & He & Hname & Ht & Hv').
    destruct e as [en eo]. simpl in *. subst en.
    destruct eo; simpl in Ht; try done; injection Ht as <-; try done.
    by injection Hv' as ->.
  - intros [Hn He]. rewrite (Hown n Hn).
    rewrite (filter_unique_name _ entryName entries
               {| entryName := n; object := Blob yaml |}); done.
Qed.



Lemma split_nonempty sep s : split sep s ≠ [].
Proof.
  destruct s as [|c s]; simpl; [done|].
  destruct (c =? sep); [done|]. by destruct (split sep s).
Qed.

Lemma split_no_separator sep s : sep ∉ s → split sep s = [s].
Proof.
  induction s as [|c s IH]; [done|]. intros Hnot. simpl.
  apply not_elem_of_cons in Hnot as [Hne Hnot].
  destruct (N.eqb_spec c sep) as [->|_]; [done|]. by rewrite IH.
Qed.

Lemma split_app sep x y :
  split sep (x ++ sep :: y) = split sep x ++ split sep y.
Proof.
  induction x as [|c x IH]; simpl.
  - by rewrite N.eqb_refl.
  - destruct (c =? sep); rewrite IH; [done|].
    pose proof (split_nonempty sep x). by destruct (split sep x).
Qed.

Lemma pop_split sep p : pop (split sep p) = Some (default [] (pop (split sep p))).
Proof.
  unfold pop. pose proof (split_nonempty sep p) as Hne.
  destruct (split sep p) as [|x l] using rev_ind; [done|].
  by rewrite last_snoc.
Qed.

Lemma lastSegment_after_slash before segment :
  code "/" ∉ segment →
  lastSegment (before ++ code "/" :: segment) = segment.
Proof.
  intros Hnot. unfold lastSegment, pop.
  rewrite split_app, (split_no_separator _ segment Hnot).
  by rewrite last_snoc.
Qed.

Lemma lastSegment_no_slash p : code "/" ∉ p → lastSegment p = p.
Proof.
  intros Hnot. unfold lastSegment. by rewrite (split_no_separator _ p Hnot).
Qed.

(** A summary that finds [undefined] is a turn of the loop that does
    nothing, so leaving such summaries out changes nothing. *)
Lemma forEach_skip files (P : Workflow → Prop) `{∀ w, Decision (P w)}
    workflows details :
  (∀ w, ¬ P w → get files (name w) = Undefined) →
  forEach (mergeStep files) details (filter P workflows)
  = forEach (mergeStep files) details workflows.
Proof.
  intros Hskip. revert details.
  induction workflows as [|w workflows IH]; intros details; [done|].
  rewrite filter_cons. destruct (decide (P w)) as [Hw|Hw]; simpl.
  - destruct (mergeStep files details w); [apply IH|done].
  - unfold mergeStep. rewrite (Hskip w Hw). apply IH.
Qed.

Lemma files_empty_name entries files :
  (∀ e, e ∈ entries → entryName e ≠ []) →
  filesOf entries = Resolved files → get files [] = Undefined.
Proof.
  intros Hnames Hfiles.
  destruct (filesOf_spec entries files Hfiles) as (Hproto & _ & Hfrom).
  unfold get. destruct (own files !! []) as [v|] eqn:E.
  - destruct (Hfrom [] v E) as (e & t & He & Hname & _).
    by destruct (Hnames e He).
  - by destruct Hproto as [-> | ->].
Qed.

Lemma aggregated_missing details n :
  aggregated details → slot details n = None →
  n ∉ objectPrototypeNames →
  (∀ w, composedField w n = None) →
  get details n = Undefined.
Proof.
  intros Hagg Hslot Hmember Hfield. pose proof Hagg as (Hown & Hproto & Hvals).
  assert (n ≠ protoKey) as Hn.
  { intros ->. apply Hmember. apply (bool_decide_unpack _). by vm_compute. }
  unfold get. destruct (own details !! n) as [v|] eqn:E.
  - destruct (Hvals n v E) as [w ->].
    apply (aggregated_own details n w Hagg) in E as [_ Hs]. congruence.
  - destruct (proto details) as [| |w]; simpl.
    + unfold fromObjectPrototype. by rewrite bool_decide_eq_false_2.
    + done.
    + rewrite Hfield, bool_decide_eq_false_2; [|done].
      unfold fromObjectPrototype. by rewrite bool_decide_eq_false_2.
Qed.

Lemma getWorkflowsDetails_Resolved listed entries :
  getWorkflowsDetails (Resolved listed) (Resolved (Some entries))
  = match filesOf entries with
    | Resolved files => mergeLoop (summariesOf listed) files
    | Rejected => Rejected
    end.
Proof. reflexivity. Qed.

Lemma summariesOf_filter listed :
  summariesOf (filter (λ l, lastSegment (path l) ≠ []) listed)
  = filter (λ w, name w ≠ []) (summariesOf listed).
Proof.
  induction listed as [|l listed IH]; [done|].
  rewrite filter_cons. simpl. rewrite filter_cons. simpl.
  destruct (decide (lastSegment (path l) ≠ [])); simpl; by rewrite IH.
Qed.

(** C5. The name of a summary is the last piece of the listed path split at
    the slashes, so the empty path gives the empty name and [pop] is never
    undefined; the fetcher keeps one summary per listed entry, in order,
    whatever the names. When the definitions hold nothing under the empty
    name, a summary of the empty name is a turn of the loop that does
    nothing: the aggregation is the one of the list without such
    summaries, and so is the outcome of the whole from the two responses
    when no file of the directory has the empty name. And when no file of the directory has the empty name, an
    aggregation that resolves gives nothing under the empty name and a row
    of that name is left as it is, the run fulfilled. *)
Theorem empty_name_is_dropped :
  lastSegment [] = [] ∧
  (∀ p, pop (split (code "/") p) = Some (lastSegment p)) ∧
  (∀ before segment,
     code "/" ∉ segment →
     lastSegment (before ++ code "/" :: segment) = segment) ∧
  (∀ p, code "/" ∉ p → lastSegment p = p) ∧
  (∀ listed,
     ∃ workflows,
       getWorkflows (Resolved listed) = Resolved workflows ∧
       length workflows = length listed ∧
       ∀ i entry,
         listed !! i = Some entry →
         workflows !! i
         = Some {| name := lastSegment (path entry);
                   isEnabled := bool_decide (state entry = units "active") |}) ∧
  (∀ workflows workflowFiles,
     get workflowFiles [] = Undefined →
     mergeLoop workflows workflowFiles
     = mergeLoop (filter (λ w, name w ≠ []) workflows) workflowFiles) ∧
  (∀ listed entries,
     (∀ e, e ∈ entries → entryName e ≠ []) →
     getWorkflowsDetails (Resolved listed) (Resolved (Some entries))
     = getWorkflowsDetails
         (Resolved (filter (λ l, lastSegment (path l) ≠ []) listed))
         (Resolved (Some entries))) ∧
  (∀ listed entries details,
     (∀ e, e ∈ entries → entryName e ≠ []) →
     getWorkflowsDetails (Resolved listed) (Resolved (Some entries))
       = Resolved details →
     get details [] = Undefined ∧
     ∀ nextDate now item,
       lastSegment (href item) = [] →
       addIndicators nextDate now (Resolved details) item
       = (item, Fulfilled)).
Proof.
  split_and!.
  - done.
  - intros p. apply pop_split.
  - apply lastSegment_after_slash.
  - apply lastSegment_no_slash.
  - intros listed. eexists. split_and!; [done|by rewrite length_fmap|].
    intros i entry Hi. by rewrite list_lookup_fmap, Hi.
  - intros workflows files Hempty. unfold mergeLoop. symmetry.
    apply forEach_skip. intros w Hw.
    destruct (decide (name w = [])) as [->|Hne]; [done|]. by destruct Hw.
  - intros listed entries Hnames. rewrite !getWorkflowsDetails_Resolved.
    destruct (filesOf entries) as [files|] eqn:Hfiles; [|done].
    pose proof (files_empty_name entries files Hnames Hfiles) as Hempty.
    rewrite summariesOf_filter. unfold mergeLoop. symmetry.
    apply forEach_skip. intros w Hw.
    destruct (decide (name w = [])) as [->|Hne]; [done|]. by destruct Hw.
  - intros listed entries details Hnames Hdetails.
    rewrite getWorkflowsDetails_Resolved in Hdetails.
    destruct (filesOf entries) as [files|] eqn:Hfiles; [|done].
    pose proof (files_empty_name entries files Hnames Hfiles) as Hempty.
    destruct (mergeLoop_spec _ _ _ Hdetails) as [Hagg Hslot].
    assert (get details [] = Undefined) as Hnone.
    { apply aggregated_missing; [done| | |].
      - rewrite Hslot. unfold expected. by rewrite Hempty.
      - intros Hin. by apply (bool_decide_pack _) in Hin.
      - intros w. by vm_compute. }
    split; [exact Hnone|].
    intros nextDate now item Hitem. unfold addIndicators.
    destruct (existsOcticonStop item); [done|]. by rewrite Hitem, Hnone.
Qed.

Lemma empty_name_is_dropped_witness :
  get {| own := {[ units "ci.yml" :=
                     Composed
                       ({| name := units "ci.yml"; isEnabled := true |},
                        {| schedule := None;
                           manuallyDispatchable := false |}) ]};
         proto := ObjectPrototype |} [] = Undefined ∧
  ∀ nextDate now item,
    lastSegment (href item) = [] →
    addIndicators nextDate now
      (Resolved
         {| own := {[ units "ci.yml" :=
                        Composed
                          ({| name := units "ci.yml"; isEnabled := true |},
                           {| schedule := None;
                              manuallyDispatchable := false |}) ]};
            proto := ObjectPrototype |}) item
    = (item, Fulfilled).
Proof.
  apply (proj2 (proj2 (proj2 (proj2 (proj2 (proj2
           (proj2 empty_name_is_dropped))))))
           [ {| path := []; state := units "active" |};
             {| path := units ".github/workflows/ci.yml";
                state := units "active" |} ]
           [ {| entryName := units "ci.yml";
                object := Blob (units "on: push") |} ]).
  - intros e He Hname.
    apply list_elem_of_singleton in He. subst e. simpl in Hname.
    vm_compute in Hname. discriminate Hname.
  - vm_compute. reflexivity.
Defined.

(** ** The rows *)

Lemma appendToLast_snoc containers svgTrailer i :
  appendToLast (containers ++ [svgTrailer]) i
  = containers ++ [svgTrailer ++ [i]].
Proof.
  induction containers as [|c containers IH]; [done|].
  simpl. rewrite IH. by destruct containers.
Qed.

Lemma addTooltip_keeps element tooltip :
  trailing (addTooltip element tooltip) = trailing element ∧
  label (addTooltip element tooltip) = label element ∧
  timers (addTooltip element tooltip) = timers element ∧
  labelElement (addTooltip element tooltip) = labelElement element.
Proof. unfold addTooltip. by destruct (ariaLabel element) as [[|? ?]|]. Qed.

Lemma afterIcons_keeps workflow item :
  trailing (afterIcons workflow item)
  = trailing item
      ++ [(if truthy (isEnabledOf workflow) then [] else [StopIcon])
            ++ (if truthy (manuallyDispatchableOf workflow)
                then [PlayIcon] else [])] ∧
  label (afterIcons workflow item) = label item ∧
  timers (afterIcons workflow item) = timers item ∧
  labelElement (afterIcons workflow item) = labelElement item.
Proof.
  unfold afterIcons.
  destruct (truthy (isEnabledOf workflow)),
    (truthy (manuallyDispatchableOf workflow)); simpl;
    repeat match goal with
           | |- context [addTooltip ?e ?t] =>
               destruct (addTooltip_keeps e t) as (-> & -> & -> & ->)
           end; simpl; rewrite ?appendToLast_snoc; simpl;
    repeat match goal with
           | |- context [addTooltip ?e ?t] =>
               destruct (addTooltip_keeps e t) as (-> & -> & -> & ->)
           end; simpl; rewrite ?appendToLast_snoc; done.
Qed.

Section IndicatorFacts.
Variable nextDate : jsstring → Z → projection.
Variable now : Z.

Lemma drawIndicators_afterIcons workflow item :
  drawIndicators nextDate now workflow item
  = match scheduleOf workflow with
    | Text (c :: expression) =>
        match nextDate (c :: expression) now with
        | Throws => (afterIcons workflow item, Thrown)
        | Nothing => (afterIcons workflow item, Fulfilled)
        | Date nextTime =>
            if labelElement item
            then (appendRelativeTime (afterIcons workflow item) nextTime,
                  Fulfilled)
            else (afterIcons workflow item, Thrown)
        end
    | _ => (afterIcons workflow item, Fulfilled)
    end.
Proof.
  unfold drawIndicators. fold (afterIcons workflow item).
  by rewrite (proj2 (proj2 (proj2 (afterIcons_keeps workflow item)))).
Qed.

Lemma drawIndicators_trailing workflow item :
  trailing (drawIndicators nextDate now workflow item).1
  = trailing item
      ++ [(if truthy (isEnabledOf workflow) then [] else [StopIcon])
            ++ (if truthy (manuallyDispatchableOf workflow)
                then [PlayIcon] else [])].
Proof.
  rewrite drawIndicators_afterIcons.
  destruct (afterIcons_keeps workflow item) as (<- & _).
  destruct (scheduleOf workflow) as [| | |[|c e]| |]; try done.
  destruct (nextDate (c :: e) now); try done.
  by destruct (labelElement item).
Qed.

Lemma drawIndicators_shown workflow item :
  disabled (drawIndicators nextDate now workflow item).1
  = negb (truthy (isEnabledOf workflow)) ∧
  dispatchable (drawIndicators nextDate now workflow item).1
  = truthy (manuallyDispatchableOf workflow).
Proof.
  unfold disabled, dispatchable, newestTrailer.
  rewrite drawIndicators_trailing, last_snoc. simpl.
  by destruct (truthy (isEnabledOf workflow)),
       (truthy (manuallyDispatchableOf workflow)).
Qed.

(** How a run past the lookup ends and what it adds to the label. *)
Lemma drawIndicators_end workflow item :
  let run := drawIndicators nextDate now workflow item in
  match scheduleOf workflow with
  | Text (c :: expression) =>
      match nextDate (c :: expression) now with
      | Throws =>
          label run.1 = label item ∧ timers run.1 = timers item ∧
          run.2 = Thrown
      | Nothing =>
          label run.1 = label item ∧ timers run.1 = timers item ∧
          run.2 = Fulfilled
      | Date t =>
          if labelElement item
          then label run.1 = label item ++ [t] ∧
               timers run.1 = timers item ++ [t] ∧ run.2 = Fulfilled
          else label run.1 = label item ∧ timers run.1 = timers item ∧
               run.2 = Thrown
      end
  | _ =>
      label run.1 = label item ∧ timers run.1 = timers item ∧
      run.2 = Fulfilled
  end.
Proof.
  simpl. rewrite drawIndicators_afterIcons.
  destruct (afterIcons_keeps workflow item) as (_ & Hl & Ht & _).
  destruct (scheduleOf workflow) as [| | |[|c e]| |]; try done.
  destruct (nextDate (c :: e) now); try done.
  destruct (labelElement item); simpl; by rewrite ?Hl, ?Ht.
Qed.
End IndicatorFacts.


Lemma addIndicators_found nextDate now workflows item w :
  existsOcticonStop item = false →
  get workflows (lastSegment (href item)) = Composed w →
  addIndicators nextDate now (Resolved workflows) item
  = drawIndicators nextDate now (Composed w) item.
Proof. intros Hstop Hget. unfold addIndicators. by rewrite Hstop, Hget. Qed.





Lemma mergeLoop_record workflows files details n yaml :
  mergeLoop workflows files = Resolved details →
  n ∈ name <$> workflows →
  get files n = Text yaml →
  ∃ summary,
    last (named n workflows) = Some summary ∧
    get details n = Composed (summary, detailsOf yaml).
Proof.
  intros [Hagg Hslot]%mergeLoop_spec [summary Hs]%last_named_Some Hget.
  exists summary. split; [done|].
  apply (aggregated_get details n _ Hagg). rewrite Hslot.
  apply expected_Some. by exists yaml.
Qed.

(** C9, as the code has it. A captured cron string is stored as it is,
    whatever it says, and is handed to the cron library with nothing to
    catch what the library throws. On a row that shows no stop icon yet
    the two icons follow their own rules; when the library returns nothing
    the run ends normally, when it throws the run throws, and in both cases
    the label and the timers stay as they were. The run throws exactly when
    the library throws or when it gives a date and the row has no label
    element. *)
Theorem unparsable_cron_gives_no_next_run
    (nextDate : jsstring → Z → projection) (now : Z)
    (workflows : list Workflow) (workflowFiles details : jsobject)
    (item : row) (workflowYaml expression : jsstring) :
  mergeLoop workflows workflowFiles = Resolved details →
  lastSegment (href item) ∈ name <$> workflows →
  get workflowFiles (lastSegment (href item)) = Text workflowYaml →
  exec workflowYaml = Some expression →
  existsOcticonStop item = false →
  ∃ w,
    get details (lastSegment (href item)) = Composed w ∧
    schedule w.2 = Some expression ∧
    let run := addIndicators nextDate now (Resolved details) item in
    disabled run.1 = negb (isEnabled w.1) ∧
    dispatchable run.1 = manuallyDispatchable w.2 ∧
    (nextDate expression now = Nothing →
     run.2 = Fulfilled ∧ label run.1 = label item ∧
     timers run.1 = timers item) ∧
    (nextDate expression now = Throws →
     run.2 = Thrown ∧ label run.1 = label item ∧
     timers run.1 = timers item) ∧
    (run.2 = Thrown ↔
     nextDate expression now = Throws ∨
     (∃ t, nextDate expression now = Date t) ∧ labelElement item = false).
Proof.
  intros Hloop Hin Hget Hexec Hstop.
  destruct (mergeLoop_record _ _ _ _ _ Hloop Hin Hget) as (summary & _ & Hw).
  exists (summary, detailsOf workflowYaml).
  split_and!; [done|done|]. simpl.
  rewrite (addIndicators_found nextDate now details item _ Hstop Hw).
  destruct (drawIndicators_shown nextDate now
              (Composed (summary, detailsOf workflowYaml)) item) as [Hd Hp].
  split_and!; [done..| | |].
  all: pose proof (drawIndicators_end nextDate now
                     (Composed (summary, detailsOf workflowYaml)) item)
         as Hend;
    simpl in Hend; rewrite Hexec in Hend;
    destruct expression as [|c e]; [by destruct (exec_nonempty workflowYaml)|].
  - intros Hn. rewrite Hn in Hend. tauto.
  - intros Hn. rewrite Hn in Hend. tauto.
  - destruct (nextDate (c :: e) now) as [| |t] eqn:Hn.
    + split; [by left|tauto].
    + destruct Hend as (_ & _ & ->).
      split; [done|]. by intros [?|[[t ?] _]].
    + destruct (labelElement item).
      * destruct Hend as (_ & _ & ->).
        split; [done|]. by intros [?|[_ ?]].
      * split; [|tauto]. intros _. right. split; [by exists t|done].
Qed.

Lemma unparsable_cron_gives_no_next_run_witness :
  ∃ w,
    get {| own := {[ units "ci.yml" :=
                       Composed
                         ({| name := units "ci.yml"; isEnabled := true |},
                          detailsOf unparsableYaml) ]};
           proto := ObjectPrototype |}
      (lastSegment (href scenarioRow)) = Composed w ∧
    schedule w.2 = Some (units "every day") ∧
    let run :=
      addIndicators (λ _ _, Nothing) 0%Z
        (Resolved
           {| own := {[ units "ci.yml" :=
                          Composed
                            ({| name := units "ci.yml"; isEnabled := true |},
                             detailsOf unparsableYaml) ]};
              proto := ObjectPrototype |})
        scenarioRow in
    disabled run.1 = negb (isEnabled w.1) ∧
    dispatchable run.1 = manuallyDispatchable w.2 ∧
    ((λ _ _, Nothing) (units "every day") 0%Z = Nothing →
     run.2 = Fulfilled ∧ label run.1 = label scenarioRow ∧
     timers run.1 = timers scenarioRow) ∧
    ((λ _ _, Nothing) (units "every day") 0%Z = Throws →
     run.2 = Thrown ∧ label run.1 = label scenarioRow ∧
     timers run.1 = timers scenarioRow) ∧
    (run.2 = Thrown ↔
     (λ _ _, Nothing) (units "every day") 0%Z = Throws ∨
     (∃ t, (λ _ _, Nothing) (units "every day") 0%Z = Date t) ∧
     labelElement scenarioRow = false).
Proof.
  apply (unparsable_cron_gives_no_next_run (λ _ _, Nothing) 0%Z
           [ {| name := units "ci.yml"; isEnabled := true |} ]
           (oneFile (units "ci.yml") unparsableYaml) _
           scenarioRow unparsableYaml (units "every day")).
  - vm_compute. reflexivity.
  - apply (bool_decide_unpack _). vm_compute. exact I.
  - vm_compute. reflexivity.
  - vm_compute. reflexivity.
  - reflexivity.
Defined.

(** C9 as stated fails when the cron library throws on the captured
    string: the record holds the string, and the run on its row throws
    after the icons are drawn, with no next run. *)
Lemma unparsable_cron_counterexample :
  mergeLoop [ {| name := units "ci.yml"; isEnabled := true |} ]
    (oneFile (units "ci.yml") memberCronYaml)
  = Resolved
      {| own := {[ units "ci.yml" :=
                     Composed
                       ({| name := units "ci.yml"; isEnabled := true |},
                        {| schedule := Some (units "constructor");
                           manuallyDispatchable := false |}) ]};
         proto := ObjectPrototype |} ∧
  throwingNextDate (units "constructor") 0 = Throws ∧
  (addIndicators throwingNextDate 0%Z
     (mergeLoop [ {| name := units "ci.yml"; isEnabled := true |} ]
        (oneFile (units "ci.yml") memberCronYaml))
     scenarioRow).2
  = Thrown ∧
  label
    (addIndicators throwingNextDate 0%Z
       (mergeLoop [ {| name := units "ci.yml"; isEnabled := true |} ]
          (oneFile (units "ci.yml") memberCronYaml))
       scenarioRow).1
  = [].
Proof. vm_compute. done. Qed.

(** C3, as the code has it. The schedule of a record is what [exec] returns
    on the text of its definition, and [exec] returns the capture of the
    first match of the pattern, the words schedule and cron in lower case
    only: the leftmost match, the capture running to the end of the text or
    to the next quote or line feed, and nothing exactly when the pattern
    matches nowhere. A text that contains the block of the round trip, with
    no word schedule before it, yields 0 0 * * *, and a text in which the
    word cron is nowhere followed by a colon, white space or a quote yields
    nothing. *)
Theorem schedule_is_first_match :
  (∀ workflows workflowFiles details n w,
     mergeLoop workflows workflowFiles = Resolved details →
     get details n = Composed w →
     ∃ workflowYaml,
       get workflowFiles n = Text workflowYaml ∧
       schedule w.2 = exec workflowYaml) ∧
  (∀ text c, exec text = Some c ↔ firstMatch text c) ∧
  (∀ text,
     exec text = None ↔
     ∀ before s a b c rest, text = before ++ s → ¬ matchesAt s a b c rest) ∧
  (∀ before after,
     includes (before ++ units "schedul") (units "schedule") = false →
     exec (before
             ++ units ("schedule:" ++ nl ++ "  - cron: " ++ dq ++ "0 0 * * *"
                       ++ dq)
             ++ after)
     = Some (units "0 0 * * *")) ∧
  (∀ text,
     (∀ before x after,
        text = before ++ units "cron" ++ x :: after → classQuote x = false) →
     exec text = None).
Proof.
  assert (∀ text,
     exec text = None ↔
     ∀ before s a b c rest, text = before ++ s → ¬ matchesAt s a b c rest)
    as Hnone.
  { intros text. rewrite exec_None. split.
    - intros H before s a b c rest Heq. by apply matchHere_None, (H before).
    - intros H before s Heq. apply matchHere_None. intros a b c rest.
      by apply (H before). }
  split_and!.
  - intros workflows files details n w Hloop
      (yaml & Hget & _ & ->)%(mergeLoop_get _ _ _ _ _ Hloop).
    by exists yaml.
  - apply exec_iff_firstMatch.
  - exact Hnone.
  - apply exec_round_trip_block.
  - intros text Hno. apply Hnone.
    intros before s a b c rest -> (-> & _ & _ & Hb & Hcb & _).
    destruct b as [|x b]; [done|]. inversion Hcb as [|? ? Hx _]; subst.
    specialize (Hno (before ++ units "schedule" ++ a) x (b ++ c ++ rest)).
    rewrite Hno in Hx; [done|]. by rewrite <-!app_assoc.
Qed.

Lemma schedule_is_first_match_witness :
  (∃ workflowYaml,
     get (oneFile (units "ci.yml") scenarioYaml) (units "ci.yml")
       = Text workflowYaml ∧
     Some (units "30 5 * * 1") = exec workflowYaml) ∧
  exec (units ("on:" ++ nl)
          ++ units ("schedule:" ++ nl ++ "  - cron: " ++ dq ++ "0 0 * * *"
                    ++ dq)
          ++ [])
  = Some (units "0 0 * * *") ∧
  exec (units "name: nightly") = None.
Proof.
  split_and!.
  - apply (proj1 schedule_is_first_match
             [ {| name := units "ci.yml"; isEnabled := false |} ]
             (oneFile (units "ci.yml") scenarioYaml)
             {| own := {[ units "ci.yml" :=
                            Composed
                              ({| name := units "ci.yml";
                                  isEnabled := false |},
                               {| schedule := Some (units "30 5 * * 1");
                                  manuallyDispatchable := true |}) ]};
                proto := ObjectPrototype |}
             (units "ci.yml")
             ({| name := units "ci.yml"; isEnabled := false |},
              {| schedule := Some (units "30 5 * * 1");
                 manuallyDispatchable := true |})).
    + vm_compute. reflexivity.
    + vm_compute. reflexivity.
  - apply (proj1 (proj2 (proj2 (proj2 schedule_is_first_match)))).
    vm_compute. reflexivity.
  - apply (proj2 (proj2 (proj2 (proj2 schedule_is_first_match)))).
    intros before x after Heq. exfalso.
    assert (includes (units "name: nightly") (units "cron") = true) as Hin.
    { apply includes_spec. exists before, (x :: after). exact Heq. }
    vm_compute in Hin. discriminate Hin.
Defined.

(** C3 as stated fails. Upper-case keys match under the ignore-case flag
    of the specification but not in the code; and a text without the
    substring cron-colon still yields a schedule when a space follows the
    word cron. *)
Lemma schedule_ignore_case_counterexample :
  execIgnoreCase
    (units ("SCHEDULE:" ++ nl ++ "  - CRON: " ++ dq ++ "0 0 * * *" ++ dq))
  = Some (units "0 0 * * *") ∧
  exec (units ("SCHEDULE:" ++ nl ++ "  - CRON: " ++ dq ++ "0 0 * * *" ++ dq))
  = None ∧
  includes (units "schedule: cron '0 0 * * *'") (units "cron:") = false ∧
  exec (units "schedule: cron '0 0 * * *'") = Some (units "0 0 * * *").
Proof. vm_compute. done. Qed.


(** * Further properties of the feature *)

(** ** Names *)

Lemma last_separator (sep : N) (p : jsstring) :
  sep ∉ p ∨ ∃ dir seg, p = dir ++ sep :: seg ∧ sep ∉ seg.
Proof.
  induction p as [|c p IH]; [left; apply not_elem_of_nil|].
  destruct IH as [Hnot|(dir & seg & -> & Hseg)].
  - destruct (decide (c = sep)) as [->|Hne].
    + right. by exists [], p.
    + left. by apply not_elem_of_cons.
  - right. by exists (c :: dir), seg.
Qed.

(** X1. The name taken from a path or a row address holds no slash and is
    what stands after the last slash: either the whole string, or the
    string is a directory part, a slash and the name. *)
Theorem lastSegment_is_slash_free_suffix (p : jsstring) :
  (code "/" ∉ lastSegment p) ∧
  (lastSegment p = p ∨ ∃ dir, p = dir ++ code "/" :: lastSegment p).
Proof.
  destruct (last_separator (code "/") p) as [Hnot|(dir & seg & -> & Hseg)].
  - rewrite (lastSegment_no_slash p Hnot). split; [done|by left].
  - rewrite (lastSegment_after_slash dir seg Hseg). split; [done|].
    right. by exists dir.
Qed.

(** ** The dictionary of definitions *)

(** With distinct entry names the dictionary loses its prototype exactly
    when a binary file is named [__proto__]. *)
Lemma filesOf_prototype entries files :
  NoDup (entryName <$> entries) →
  filesOf entries = Resolved files →
  proto files = NullPrototype ↔ nullPrototypeEntry ∈ entries.
Proof.
  revert files. induction entries as [|e entries IH] using rev_ind;
    intros files Hnd.
  - intros [= <-]. split; [done|]. by intros ?%not_elem_of_nil.
  - unfold filesOf. rewrite forEach_snoc. fold (filesOf entries).
    destruct (filesOf entries) as [before|] eqn:Hb; [|done].
    rewrite fmap_app in Hnd. apply NoDup_app in Hnd as (Hnd & Hfresh & _).
    specialize (IH before Hnd eq_refl).
    pose proof (filesOf_proto_key entries before Hnd Hb) as Hown.
    intros (t & Ht & ->)%storeEntry_Resolved.
    assert (entryName e = protoKey → nullPrototypeEntry ∉ entries) as Hone.
    { intros Heq Hin. apply (Hfresh protoKey).
      - by apply (list_elem_of_fmap_2 entryName) in Hin.
      - rewrite <-Heq. simpl. by left. }
    unfold assignText. destruct (reachesAccessor before (entryName e)) eqn:E.
    + pose proof (reachesAccessor_key _ _ E) as Hkey.
      destruct e as [n o]. simpl in *. subst n.
      destruct o; simpl in Ht; try discriminate Ht; injection Ht as <-;
        simpl.
      * split.
        -- intros Hp. apply elem_of_app. left. by apply IH.
        -- intros [Hin|[=]%list_elem_of_singleton]%elem_of_app.
           by destruct (Hone eq_refl).
      * split; [|done]. intros _. apply elem_of_app. right. by left.
      * split.
        -- intros Hp. apply elem_of_app. left. by apply IH.
        -- intros [Hin|[=]%list_elem_of_singleton]%elem_of_app.
           by destruct (Hone eq_refl).
    + simpl. destruct (decide (entryName e = protoKey)) as [Heq|Hne].
      * exfalso. unfold reachesAccessor in E. rewrite Heq in E.
        rewrite bool_decide_eq_true_2 in E; [|done].
        rewrite bool_decide_eq_true_2 in E; [|done]. simpl in E.
        apply (Hone Heq), IH. by destruct (proto before).
      * rewrite IH. split.
        -- intros Hin. apply elem_of_app. by left.
        -- intros [Hin|Hin%list_elem_of_singleton]%elem_of_app; [done|].
           subst e. by destruct Hne.
Qed.

(** What a read of the dictionary gives, entry names being distinct. *)
Lemma filesOf_get entries files :
  NoDup (entryName <$> entries) →
  filesOf entries = Resolved files →
  (∀ e, e ∈ entries → entryName e ≠ protoKey →
        ∃ t, objectText (object e) = Some t ∧
             own files !! entryName e = Some (toProperty t) ∧
             get files (entryName e) = toProperty t) ∧
  (∀ n, n = protoKey ∨ n ∉ entryName <$> entries →
        own files !! n = None ∧
        (nullPrototypeEntry ∈ entries → get files n = Undefined) ∧
        (nullPrototypeEntry ∉ entries →
         get files n = fromObjectPrototype n)).
Proof.
  intros Hnd Hfiles.
  destruct (filesOf_spec entries files Hfiles) as (Hproto & Hown & Hfrom).
  pose proof (filesOf_prototype entries files Hnd Hfiles) as Hnull.
  split.
  - intros e He Hne.
    assert (own files !! entryName e
            = toProperty <$> objectText (object e)) as Hv.
    { rewrite (Hown _ Hne).
      by rewrite (filter_unique_name _ entryName entries e). }
    destruct (objectText (object e)) as [t|] eqn:Ht.
    + exists t. split_and!; [done..|]. unfold get. by rewrite Hv.
    + exfalso. assert (filesOf entries = Rejected); [|congruence].
      apply filesOf_Rejected. exists e. split; [done|].
      by destruct (object e).
  - intros n Hn.
    assert (own files !! n = None) as Hnone.
    { destruct Hn as [->|Hn]; [by apply (filesOf_proto_key entries)|].
      destruct (own files !! n) as [v|] eqn:E; [|done].
      destruct (Hfrom n v E) as (e & t & He & <- & _).
      destruct Hn. by apply list_elem_of_fmap_2. }
    split_and!; [done| |]; intros Hin; unfold get; rewrite Hnone.
    + apply Hnull in Hin. by rewrite Hin.
    + destruct Hproto as [-> | Hp]; [done|]. by apply Hnull in Hp.
Qed.

(** X2. With distinct entry names and no entry without an object, the
    fetcher resolves; the dictionary gives back every entry not named
    [__proto__] under its name, the text of a file, [null] for a binary
    file and [undefined] for another object; it has no own key besides,
    none under [__proto__] either; and a read under any other name goes to
    the prototype, which is [Object.prototype] unless a binary file named
    [__proto__] took it away. *)
Theorem definitions_round_trip (entries : list treeEntry) :
  NoDup (entryName <$> entries) →
  (∀ e, e ∈ entries → object e ≠ NoObject) →
  ∃ workflowFiles,
    getFilesInWorkflowPath (Resolved (Some entries)) = Resolved workflowFiles ∧
    (∀ e, e ∈ entries → entryName e ≠ protoKey →
          ∃ t, objectText (object e) = Some t ∧
               own workflowFiles !! entryName e = Some (toProperty t) ∧
               get workflowFiles (entryName e) = toProperty t) ∧
    (∀ n, n = protoKey ∨ n ∉ entryName <$> entries →
          own workflowFiles !! n = None ∧
          (nullPrototypeEntry ∈ entries → get workflowFiles n = Undefined) ∧
          (nullPrototypeEntry ∉ entries →
           get workflowFiles n
           = if bool_decide (n ∈ objectPrototypeNames) then Inherited n
             else Undefined)).
Proof.
  intros Hnd Hobjects. simpl. fold (filesOf entries).
  destruct (filesOf entries) as [files|] eqn:Hfiles.
  - exists files. split; [done|]. by apply filesOf_get.
  - apply filesOf_Rejected in Hfiles as (e & He & Ho).
    by destruct (Hobjects e He).
Qed.

Lemma definitions_round_trip_witness :
  ∃ workflowFiles,
    getFilesInWorkflowPath (Resolved (Some scenarioDirectory))
      = Resolved workflowFiles ∧
    (∀ e, e ∈ scenarioDirectory → entryName e ≠ protoKey →
          ∃ t, objectText (object e) = Some t ∧
               own workflowFiles !! entryName e = Some (toProperty t) ∧
               get workflowFiles (entryName e) = toProperty t) ∧
    (∀ n, n = protoKey ∨ n ∉ entryName <$> scenarioDirectory →
          own workflowFiles !! n = None ∧
          (nullPrototypeEntry ∈ scenarioDirectory →
           get workflowFiles n = Undefined) ∧
          (nullPrototypeEntry ∉ scenarioDirectory →
           get workflowFiles n
           = if bool_decide (n ∈ objectPrototypeNames) then Inherited n
             else Undefined)).
Proof.
  apply (definitions_round_trip scenarioDirectory).
  - apply (bool_decide_unpack _). vm_compute. exact I.
  - intros e [->|[->|[]%not_elem_of_nil]%elem_of_cons]%elem_of_cons; done.
Defined.

(** ** The records of the aggregation *)

Lemma exec_capture_class s c :
  exec s = Some c → c ≠ [] ∧ Forall classCron c.
Proof.
  intros (before & s' & _ & Hm & _)%exec_Some.
  apply matchHere_Some in Hm as (a & b & rest & Hm & _).
  by destruct Hm as (_ & _ & _ & _ & _ & Hc & Hcc).
Qed.

(** X3. Every record of the aggregation is stored under its own name. *)
Theorem record_key_is_its_name
    (workflows : list Workflow) (workflowFiles details : jsobject)
    (n : jsstring) (w : ComposedWorkflow) :
  mergeLoop workflows workflowFiles = Resolved details →
  get details n = Composed w → name w.1 = n.
Proof.
  intros Hloop (yaml & _ & Hlast & _)%(mergeLoop_get _ _ _ _ _ Hloop).
  apply last_Some_elem_of in Hlast.
  by apply list_elem_of_filter in Hlast as [Hname _].
Qed.

Lemma record_key_is_its_name_witness :
  name ({| name := units "ci.yml"; isEnabled := true |},
        {| schedule := None; manuallyDispatchable := false |}).1
  = units "ci.yml".
Proof.
  apply (record_key_is_its_name
           [ {| name := units "ci.yml"; isEnabled := true |} ]
           (oneFile (units "ci.yml") (units "on: push"))
           {| own := {[ units "ci.yml" :=
                          Composed
                            ({| name := units "ci.yml"; isEnabled := true |},
                             {| schedule := None;
                                manuallyDispatchable := false |}) ]};
              proto := ObjectPrototype |}).
  - vm_compute. reflexivity.
  - vm_compute. reflexivity.
Defined.

(** X4. A schedule kept in a record is never the empty string and holds
    no single quote, no double quote and no line feed. *)
Theorem stored_schedule_is_clean
    (workflows : list Workflow) (workflowFiles details : jsobject)
    (n : jsstring) (w : ComposedWorkflow) (expression : jsstring) :
  mergeLoop workflows workflowFiles = Resolved details →
  get details n = Composed w →
  schedule w.2 = Some expression →
  expression ≠ [] ∧ (39 ∉ expression) ∧ (34 ∉ expression) ∧
  (10 ∉ expression).
Proof.
  intros Hloop (yaml & _ & _ & ->)%(mergeLoop_get _ _ _ _ _ Hloop) Hs.
  simpl in Hs.
  apply exec_capture_class in Hs as [Hne Hcls]. split; [done|].
  rewrite Forall_forall in Hcls.
  split_and!; intros Hin; apply Hcls in Hin; by vm_compute in Hin.
Qed.

Lemma stored_schedule_is_clean_witness :
  units "30 5 * * 1" ≠ [] ∧ (39 ∉ units "30 5 * * 1") ∧
  (34 ∉ units "30 5 * * 1") ∧ (10 ∉ units "30 5 * * 1").
Proof.
  apply (stored_schedule_is_clean
           [ {| name := units "ci.yml"; isEnabled := false |} ]
           (oneFile (units "ci.yml") scenarioYaml)
           {| own := {[ units "ci.yml" :=
                          Composed
                            ({| name := units "ci.yml"; isEnabled := false |},
                             {| schedule := Some (units "30 5 * * 1");
                                manuallyDispatchable := true |}) ]};
              proto := ObjectPrototype |}
           (units "ci.yml")
           ({| name := units "ci.yml"; isEnabled := false |},
            {| schedule := Some (units "30 5 * * 1");
               manuallyDispatchable := true |})).
  - vm_compute. reflexivity.
  - vm_compute. reflexivity.
  - reflexivity.
Defined.

Lemma named_at_most_one n workflows :
  NoDup (name <$> workflows) →
  named n workflows = [] ∨ ∃ w, named n workflows = [w].
Proof.
  intros Hnd. destruct (named n workflows) as [|w l] eqn:E; [by left|].
  right. exists w.
  assert (w ∈ named n workflows) as Hw by (rewrite E; by left).
  apply list_elem_of_filter in Hw as [Hname Hw].
  rewrite <-E. unfold named.
  apply (filter_unique_name _ name workflows w); [done| |done].
  intros y. by rewrite Hname.
Qed.

(** X5. When the summaries have distinct names, their order does not
    matter: any rearrangement of the list gives the same outcome, the same
    dictionary or a throw alike. *)
Theorem aggregation_ignores_order
    (workflows workflows' : list Workflow) (workflowFiles : jsobject) :
  NoDup (name <$> workflows) →
  workflows ≡ₚ workflows' →
  mergeLoop workflows workflowFiles = mergeLoop workflows' workflowFiles.
Proof.
  intros Hnd Hperm.
  destruct (mergeLoop workflows workflowFiles) as [d|] eqn:E,
    (mergeLoop workflows' workflowFiles) as [d'|] eqn:E'.
  - f_equal. apply mergeLoop_spec in E as [Ha Hs], E' as [Ha' Hs'].
    apply aggregated_eq; [done..|]. intros n. rewrite Hs, Hs'.
    unfold expected. destruct (get workflowFiles n); try done. f_equal.
    assert (named n workflows ≡ₚ named n workflows') as Hn
      by (unfold named; by rewrite Hperm).
    destruct (named_at_most_one n workflows Hnd) as [En|[w En]];
      rewrite En in Hn |- *.
    + apply Permutation_nil_l in Hn. by rewrite Hn.
    + apply Permutation_singleton_l in Hn. by rewrite Hn.
  - exfalso. apply mergeLoop_Rejected in E' as (w & Hw & Ht).
    rewrite <-Hperm in Hw.
    assert (mergeLoop workflows workflowFiles = Rejected); [|congruence].
    apply mergeLoop_Rejected. by exists w.
  - exfalso. apply mergeLoop_Rejected in E as (w & Hw & Ht).
    rewrite Hperm in Hw.
    assert (mergeLoop workflows' workflowFiles = Rejected); [|congruence].
    apply mergeLoop_Rejected. by exists w.
  - done.
Qed.

Lemma aggregation_ignores_order_witness :
  mergeLoop
    [ {| name := units "ci.yml"; isEnabled := true |};
      {| name := units "lint.yml"; isEnabled := false |} ]
    (oneFile (units "ci.yml") scenarioYaml)
  = mergeLoop
      [ {| name := units "lint.yml"; isEnabled := false |};
        {| name := units "ci.yml"; isEnabled := true |} ]
      (oneFile (units "ci.yml") scenarioYaml).
Proof.
  apply aggregation_ignores_order.
  - apply (bool_decide_unpack _). vm_compute. exact I.
  - apply Permutation_swap.
Defined.

Lemma expected_app earlier later files n :
  expected (earlier ++ later) files n
  = match expected later files n with
    | Some w => Some w
    | None => expected earlier files n
    end.
Proof.
  unfold expected, named. rewrite filter_app.
  destruct (get files n); try done.
  destruct (filter _ later) as [|w l] using rev_ind.
  - by rewrite app_nil_r.
  - by rewrite app_assoc, !last_snoc.
Qed.

(** X6. Aggregating a list in two parts: the records of the later part
    come first, the records of the earlier part fill in the names the later
    part does not have, and the whole throws when a part throws. *)
Theorem aggregation_of_appended_lists
    (earlier later : list Workflow) (workflowFiles : jsobject) :
  mergeLoop (earlier ++ later) workflowFiles
  = overlay (mergeLoop later workflowFiles)
      (mergeLoop earlier workflowFiles).
Proof.
  destruct (mergeLoop (earlier ++ later) workflowFiles) as [d|] eqn:E.
  - destruct (mergeLoop later workflowFiles) as [t|] eqn:El.
    2: { apply mergeLoop_Rejected in El as (w & Hw & Ht).
         assert (mergeLoop (earlier ++ later) workflowFiles = Rejected);
           [|congruence].
         apply mergeLoop_Rejected. exists w. split; [|done].
         apply elem_of_app. by right. }
    destruct (mergeLoop earlier workflowFiles) as [b|] eqn:Ee.
    2: { apply mergeLoop_Rejected in Ee as (w & Hw & Ht).
         assert (mergeLoop (earlier ++ later) workflowFiles = Rejected);
           [|congruence].
         apply mergeLoop_Rejected. exists w. split; [|done].
         apply elem_of_app. by left. }
    simpl. f_equal.
    apply mergeLoop_spec in E as [Ha Hs], El as [Hat Hst], Ee as [Hab Hsb].
    pose proof Hat as (Hot & Hpt & Hvt). pose proof Hab as (Hob & Hpb & Hvb).
    apply aggregated_eq; [done| |].
    + split_and!; simpl.
      * by rewrite lookup_union, Hot, Hob.
      * by destruct (proto t).
      * intros n v [Hv|[_ Hv]]%lookup_union_Some_raw; eauto.
    + intros n. rewrite Hs, expected_app, <-Hst, <-Hsb. unfold slot. simpl.
      case_bool_decide.
      * by destruct (proto t).
      * rewrite lookup_union. destruct (own t !! n) as [v|] eqn:Ev.
        -- destruct (Hvt n v Ev) as [w ->]. by destruct (own b !! n).
        -- by destruct (own b !! n).
  - apply mergeLoop_Rejected in E
      as (w & [Hw|Hw]%elem_of_app & Ht).
    + assert (mergeLoop earlier workflowFiles = Rejected) as ->
        by (apply mergeLoop_Rejected; by exists w).
      by destruct (mergeLoop later workflowFiles).
    + assert (mergeLoop later workflowFiles = Rejected) as ->
        by (apply mergeLoop_Rejected; by exists w).
      done.
Qed.

(** On which names the read of the dictionary makes the loop throw. *)
Lemma filesOf_throwsOn entries files n :
  NoDup (entryName <$> entries) →
  filesOf entries = Resolved files →
  throwsOn (get files n) = true ↔
  (n ≠ protoKey ∧ {| entryName := n; object := BinaryBlob |} ∈ entries) ∨
  (n ∈ objectPrototypeNames ∧
   (n = protoKey ∨ n ∉ entryName <$> entries) ∧
   nullPrototypeEntry ∉ entries).
Proof.
  intros Hnd Hfiles.
  destruct (filesOf_get entries files Hnd Hfiles) as [Hentry Hother].
  destruct (decide (n = protoKey ∨ n ∉ entryName <$> entries)) as [Hn|Hn].
  - destruct (Hother n Hn) as (_ & Hnull & Hobj). split.
    + intros Ht. right.
      assert (nullPrototypeEntry ∉ entries) as Hno.
      { intros Hin. rewrite (Hnull Hin) in Ht. done. }
      split_and!; [|done..]. rewrite (Hobj Hno) in Ht.
      unfold fromObjectPrototype in Ht. by case_bool_decide.
    + intros [[Hne Hin]|(Hmember & _ & Hno)].
      * destruct Hn as [?|Hn]; [done|]. destruct Hn.
        by apply (list_elem_of_fmap_2 entryName) in Hin.
      * rewrite (Hobj Hno). unfold fromObjectPrototype.
        by rewrite bool_decide_eq_true_2.
  - assert (n ≠ protoKey) as Hne by tauto.
    assert (n ∈ entryName <$> entries) as (e & -> & He)%list_elem_of_fmap.
    { destruct (decide (n ∈ entryName <$> entries)); tauto. }
    destruct (Hentry e He Hne) as (t & Ht & _ & ->). split.
    + intros Hthrows. left. split; [done|].
      destruct e as [m o]. simpl in *.
      by destruct o; simpl in Ht; try discriminate Ht; injection Ht as <-.
    + intros [[_ Hin]|(_ & Hout & _)]; [|tauto].
      assert (e = {| entryName := entryName e; object := BinaryBlob |})
        as Heq.
      { assert (filter (λ x, entryName x = entryName e) entries = [e]) as H1
          by (by apply (filter_unique_name _ entryName entries e)).
        assert (filter (λ x, entryName x = entryName e) entries
                = [ {| entryName := entryName e; object := BinaryBlob |} ])
          as H2
          by (by apply (filter_unique_name _ entryName entries
                          {| entryName := entryName e;
                             object := BinaryBlob |})).
        congruence. }
      rewrite Heq in Ht. simpl in Ht. by injection Ht as <-.
Qed.

(** X7. When the aggregation rejects. It rejects when a fetch rejects;
    and with both responses there and distinct entry names, it rejects
    exactly when an entry has no object, or a listed workflow is named like
    a binary file of the directory, or is named like a member of
    [Object.prototype] that no entry overrides while no binary file is
    named [__proto__]. *)
Theorem aggregation_rejects_iff :
  (∀ rest graphql,
     rest = Rejected ∨ graphql = Rejected →
     getWorkflowsDetails rest graphql = Rejected) ∧
  (∀ listed workflowFiles,
     let entries := default [] workflowFiles in
     NoDup (entryName <$> entries) →
     getWorkflowsDetails (Resolved listed) (Resolved workflowFiles) = Rejected
     ↔
     (∃ e, e ∈ entries ∧ object e = NoObject) ∨
     (∃ l, l ∈ listed ∧
           let n := lastSegment (path l) in
           (n ≠ protoKey ∧
            {| entryName := n; object := BinaryBlob |} ∈ entries) ∨
           (n ∈ objectPrototypeNames ∧
            (n = protoKey ∨ n ∉ entryName <$> entries) ∧
            nullPrototypeEntry ∉ entries))).
Proof.
  split.
  - intros rest graphql [-> | ->]; [done|].
    unfold getWorkflowsDetails. by destruct (getWorkflows rest).
  - intros listed workflowFiles entries Hnd.
    assert (getWorkflowsDetails (Resolved listed) (Resolved workflowFiles)
            = match filesOf entries with
              | Resolved files => mergeLoop (summariesOf listed) files
              | Rejected => Rejected
              end) as -> by reflexivity.
    destruct (filesOf entries) as [files|] eqn:Hfiles.
    + rewrite mergeLoop_Rejected. split.
      * intros (w & (l & -> & Hl)%list_elem_of_fmap & Ht). right.
        exists l. split; [done|]. simpl in Ht.
        by apply (filesOf_throwsOn entries files _ Hnd Hfiles).
      * intros [(e & He & Ho)|(l & Hl & Hn)].
        -- assert (filesOf entries = Rejected); [|congruence].
           apply filesOf_Rejected. by exists e.
        -- eexists. split; [by apply list_elem_of_fmap_2|]. simpl.
           by apply (filesOf_throwsOn entries files _ Hnd Hfiles).
    + split; [|done]. intros _. left. by apply filesOf_Rejected.
Qed.

Lemma aggregation_rejects_iff_witness :
  getWorkflowsDetails
    (Resolved [ {| path := units ".github/workflows/toString";
                   state := units "active" |} ])
    (Resolved (Some scenarioDirectory))
  = Rejected.
Proof.
  apply (proj2 aggregation_rejects_iff
           [ {| path := units ".github/workflows/toString";
                state := units "active" |} ]
           (Some scenarioDirectory)).
  - apply (bool_decide_unpack _). vm_compute. exact I.
  - right. eexists. split; [by left|]. right. split_and!.
    + apply (bool_decide_unpack _). vm_compute. exact I.
    + right. apply (bool_decide_unpack _). vm_compute. exact I.
    + intros [[=]|[[=]|[]%not_elem_of_nil]%elem_of_cons]%elem_of_cons.
Defined.

(** X8. From the two responses to the record: when the aggregation
    resolves, a workflow listed at a path whose last piece is the name of a
    file of the directory, and not listed again later under that name, has
    a record under that name, enabled exactly when its listed state is
    active, with the details of the file's text. *)
Theorem listed_file_has_a_record
    (earlier later : list listedWorkflow) (listed : listedWorkflow)
    (entries : list treeEntry) (details : jsobject)
    (dir n workflowYaml : jsstring) :
  path listed = dir ++ code "/" :: n →
  code "/" ∉ n →
  (∀ l, l ∈ later → lastSegment (path l) ≠ n) →
  NoDup (entryName <$> entries) →
  {| entryName := n; object := Blob workflowYaml |} ∈ entries →
  getWorkflowsDetails (Resolved (earlier ++ listed :: later))
    (Resolved (Some entries)) = Resolved details →
  get details n
  = Composed ({| name := n;
                 isEnabled := bool_decide (state listed = units "active") |},
              {| schedule := exec workflowYaml;
                 manuallyDispatchable :=
                   includes workflowYaml (units "workflow_dispatch:") |}).
Proof.
  intros Hpath Hn Hlater Hnd Hentry. rewrite getWorkflowsDetails_Resolved.
  destruct (filesOf entries) as [files|] eqn:Hfiles; [|done].
  intros Hloop.
  assert (lastSegment (path listed) = n) as Hname
    by (by rewrite Hpath, (lastSegment_after_slash dir n Hn)).
  assert (n ≠ protoKey) as Hne.
  { intros ->.
    assert (mergeLoop (summariesOf (earlier ++ listed :: later)) files
            = Rejected); [|congruence].
    apply mergeLoop_Rejected. eexists. split.
    - apply list_elem_of_fmap_2, elem_of_app. right. by left.
    - simpl. rewrite Hname.
      apply (filesOf_throwsOn entries files _ Hnd Hfiles). right.
      split_and!; [apply (bool_decide_unpack _); by vm_compute|by left|].
      intros Hin.
      assert (filter (λ x, entryName x = protoKey) entries
              = [nullPrototypeEntry]) as H1
        by (by apply (filter_unique_name _ entryName entries
                        nullPrototypeEntry)).
      assert (filter (λ x, entryName x = protoKey) entries
              = [ {| entryName := protoKey; object := Blob workflowYaml |} ])
        as H2
        by (by apply (filter_unique_name _ entryName entries
                        {| entryName := protoKey;
                           object := Blob workflowYaml |})).
      rewrite H1 in H2. done. }
  assert (get files n = Text workflowYaml) as Hget
    by (by apply (filesOf_Text_NoDup entries files n workflowYaml Hnd Hfiles)).
  destruct (mergeLoop_spec _ _ _ Hloop) as [Hagg Hslot].
  apply (aggregated_get details n _ Hagg). rewrite Hslot.
  apply expected_Some. exists workflowYaml. split_and!; [done| |done].
  unfold summariesOf, named.
  rewrite fmap_app, fmap_cons, filter_app, filter_cons_True; [|done].
  rewrite (filter_none _ (_ <$> later)).
  - by rewrite last_snoc, Hname.
  - intros w (l & -> & Hl)%list_elem_of_fmap. simpl. by apply Hlater.
Qed.

Lemma listed_file_has_a_record_witness :
  get {| own := {[ units "ci.yml" :=
                     Composed
                       ({| name := units "ci.yml"; isEnabled := true |},
                        {| schedule := None;
                           manuallyDispatchable := false |}) ]};
         proto := ObjectPrototype |}
    (units "ci.yml")
  = Composed ({| name := units "ci.yml";
                 isEnabled := bool_decide (units "active" = units "active") |},
              {| schedule := exec (units "on: push");
                 manuallyDispatchable :=
                   includes (units "on: push") (units "workflow_dispatch:") |}).
Proof.
  apply (listed_file_has_a_record [] []
           {| path := units ".github/workflows/ci.yml";
              state := units "active" |}
           scenarioDirectory _ (units ".github/workflows") (units "ci.yml")
           (units "on: push")).
  - reflexivity.
  - apply (bool_decide_unpack _). vm_compute. exact I.
  - intros l Hl. by apply not_elem_of_nil in Hl.
  - apply (bool_decide_unpack _). vm_compute. exact I.
  - unfold scenarioDirectory. left.
  - vm_compute. reflexivity.
Defined.

(** ** Tooltips *)

Lemma classListAdd_spec classes tokens :
  classes `prefix_of` classListAdd classes tokens ∧
  (∀ t, t ∈ tokens → t ∈ classListAdd classes tokens) ∧
  (NoDup classes → NoDup (classListAdd classes tokens)).
Proof.
  unfold classListAdd. revert classes.
  induction tokens as [|t tokens IH]; intros classes; simpl.
  - split_and!; [done| |done]. by intros t ?%not_elem_of_nil.
  - destruct (IH (if bool_decide (t ∈ classes) then classes
                  else classes ++ [t])) as (Hpre & Hin & Hnd).
    split_and!.
    + etrans; [|exact Hpre]. case_bool_decide; [done|].
      by apply prefix_app_r.
    + intros t' [->|Ht']%elem_of_cons; [|by apply Hin].
      eapply elem_of_prefix; [|exact Hpre].
      case_bool_decide; [done|]. apply elem_of_app. right. by left.
    + intros Hc. apply Hnd. case_bool_decide; [done|].
      apply NoDup_app. split_and!; [done| |apply NoDup_singleton].
      intros x Hx ->%list_elem_of_singleton. done.
Qed.

Lemma classListAdd_present classes tokens :
  (∀ t, t ∈ tokens → t ∈ classes) → classListAdd classes tokens = classes.
Proof.
  unfold classListAdd. induction tokens as [|t tokens IH]; intros Hall;
    simpl; [done|].
  rewrite bool_decide_eq_true_2; [|apply Hall; by left].
  apply IH. intros t' Ht'. apply Hall. by right.
Qed.

Lemma addTooltip_label element tooltip :
  ariaLabel (addTooltip element tooltip)
  = Some (match ariaLabel element with
          | Some (c :: existing) =>
              (c :: existing) ++ units ("." ++ nl) ++ tooltip
          | _ => tooltip
          end).
Proof. unfold addTooltip. by destruct (ariaLabel element) as [[|? ?]|]. Qed.

Lemma addTooltip_classList element tooltip :
  classList (addTooltip element tooltip)
  = match ariaLabel element with
    | Some (_ :: _) => classList element
    | _ => classListAdd (classList element)
             [units "tooltipped"; units "tooltipped-s"]
    end.
Proof. unfold addTooltip. by destruct (ariaLabel element) as [[|? ?]|]. Qed.

(** X9. Two tooltips in a row: the first call always leaves a label; the
    second appends to it after a full stop and a line feed, or replaces it
    when it is empty (an empty label counts as none); and the second call
    leaves the classes as the first left them. *)
Theorem addTooltip_twice (element : row) (first second : jsstring) :
  ∃ shown,
    ariaLabel (addTooltip element first) = Some shown ∧
    ariaLabel (addTooltip (addTooltip element first) second)
    = Some (match shown with
            | [] => second
            | _ => shown ++ units ("." ++ nl) ++ second
            end) ∧
    classList (addTooltip (addTooltip element first) second)
    = classList (addTooltip element first).
Proof.
  eexists. split; [apply addTooltip_label|].
  rewrite (addTooltip_label (addTooltip element first)).
  rewrite (addTooltip_classList (addTooltip element first)).
  rewrite (addTooltip_label element first).
  set (shown := match ariaLabel element with
                | Some (c :: existing) => _
                | _ => first
                end).
  destruct shown as [|c shown'] eqn:E; [|done].
  split; [done|].
  rewrite addTooltip_classList.
  destruct (ariaLabel element) as [[|? ?]|]; try done;
    apply classListAdd_present, classListAdd_spec.
Qed.

(** X10. A tooltip never removes a class and never doubles one; on an
    element without a label, or with an empty one, it makes the element a
    tooltipped one. *)
Theorem addTooltip_classes (element : row) (tooltip : jsstring) :
  classList element `prefix_of` classList (addTooltip element tooltip) ∧
  (NoDup (classList element) →
   NoDup (classList (addTooltip element tooltip))) ∧
  (ariaLabel element = None ∨ ariaLabel element = Some [] →
   units "tooltipped" ∈ classList (addTooltip element tooltip) ∧
   units "tooltipped-s" ∈ classList (addTooltip element tooltip)).
Proof.
  pose proof (classListAdd_spec (classList element)
                [units "tooltipped"; units "tooltipped-s"])
    as (Hpre & Hin & Hnd).
  unfold addTooltip.
  destruct (ariaLabel element) as [[|c existing]|]; simpl;
    (split_and!; [done|done|]).
  - intros _. split; apply Hin; [by left|right; by left].
  - by intros [?|?].
  - intros _. split; apply Hin; [by left|right; by left].
Qed.

Lemma addTooltip_classes_witness :
  units "tooltipped" ∈ classList (addTooltip scenarioRow (units "Manual")) ∧
  units "tooltipped-s" ∈ classList (addTooltip scenarioRow (units "Manual")).
Proof.
  apply (proj2 (proj2 (addTooltip_classes scenarioRow (units "Manual")))).
  left. reflexivity.
Defined.

(** ** What a run does to a row *)

Lemma addTooltip_frame element tooltip :
  href (addTooltip element tooltip) = href element ∧
  octiconStop (addTooltip element tooltip) = octiconStop element ∧
  classList element `prefix_of` classList (addTooltip element tooltip).
Proof.
  rewrite addTooltip_classList.
  pose proof (classListAdd_spec (classList element)
                [units "tooltipped"; units "tooltipped-s"]) as [Hpre _].
  unfold addTooltip.
  destruct (ariaLabel element) as [[|? ?]|]; by split_and!.
Qed.

Lemma afterIcons_frame workflow item :
  href (afterIcons workflow item) = href item ∧
  octiconStop (afterIcons workflow item) = octiconStop item ∧
  classList item `prefix_of` classList (afterIcons workflow item).
Proof.
  unfold afterIcons.
  set (item1 := if negb (truthy (isEnabledOf workflow)) then _ else _).
  assert (href item1 = href item ∧ octiconStop item1 = octiconStop item ∧
          classList item `prefix_of` classList item1) as (H1 & H2 & H3).
  { unfold item1. destruct (truthy (isEnabledOf workflow)); simpl; [done|].
    apply (addTooltip_frame (appendIcon (appendTrailer item) StopIcon)). }
  destruct (truthy (manuallyDispatchableOf workflow)); [|done].
  destruct (addTooltip_frame (appendIcon item1 PlayIcon)
              (units "This workflow can be triggered manually"))
    as (-> & -> & Hp).
  split_and!; [done..|]. by etrans.
Qed.

(** What a run past the lookup leaves of the row, however it ends. *)
Lemma drawIndicators_appends nextDate now workflow item :
  let item' := (drawIndicators nextDate now workflow item).1 in
  href item' = href item ∧
  octiconStop item' = octiconStop item ∧
  classList item `prefix_of` classList item' ∧
  (∃ dates,
     label item' = label item ++ dates ∧
     timers item' = timers item ++ dates ∧
     (length dates ≤ 1)%nat).
Proof.
  simpl. rewrite drawIndicators_afterIcons.
  destruct (afterIcons_frame workflow item) as (Hh & Ho & Hc).
  destruct (afterIcons_keeps workflow item) as (_ & Hl & Ht & _).
  assert (∃ dates,
            label (afterIcons workflow item) = label item ++ dates ∧
            timers (afterIcons workflow item) = timers item ++ dates ∧
            (length dates ≤ 1)%nat) as Hnone.
  { exists []. rewrite !app_nil_r. simpl. split_and!; [done..|lia]. }
  destruct (scheduleOf workflow) as [| | |[|c e]| |]; try done.
  destruct (nextDate (c :: e) now) as [| |t]; try done.
  destruct (labelElement item); [|done]. simpl.
  split_and!; [done..|]. exists [t]. rewrite Hl, Ht. simpl.
  split_and!; [done..|lia].
Qed.

(** X11. A run only appends, however it ends: the address and the stop
    mark of the row stay, no class goes away, at most one container is
    added after the existing ones, and at most one date is added to the
    label, together with one callback for the same date. *)
Theorem addIndicators_only_appends
    (nextDate : jsstring → Z → projection) (now : Z)
    (cached : outcome jsobject) (item item' : row) (ending : completion) :
  addIndicators nextDate now cached item = (item', ending) →
  href item' = href item ∧
  octiconStop item' = octiconStop item ∧
  classList item `prefix_of` classList item' ∧
  (∃ containers,
     trailing item' = trailing item ++ containers ∧
     (length containers ≤ 1)%nat) ∧
  (∃ dates,
     label item' = label item ++ dates ∧
     timers item' = timers item ++ dates ∧
     (length dates ≤ 1)%nat).
Proof.
  assert (href item = href item ∧
          octiconStop item = octiconStop item ∧
          classList item `prefix_of` classList item ∧
          (∃ containers,
             trailing item = trailing item ++ containers ∧
             (length containers ≤ 1)%nat) ∧
          (∃ dates,
             label item = label item ++ dates ∧
             timers item = timers item ++ dates ∧
             (length dates ≤ 1)%nat)) as Hsame.
  { split_and!; [done..| |].
    - exists []. rewrite app_nil_r. simpl. split; [done|lia].
    - exists []. rewrite !app_nil_r. simpl. split_and!; [done..|lia]. }
  unfold addIndicators. destruct (existsOcticonStop item).
  { by intros [= <- _]. }
  destruct cached as [workflows|]; [|by intros [= <- _]].
  destruct (truthy (get workflows (lastSegment (href item)))).
  2: { by intros [= <- _]. }
  intros Hrun.
  pose proof (drawIndicators_appends nextDate now
                (get workflows (lastSegment (href item))) item) as Hdraw.
  pose proof (drawIndicators_trailing nextDate now
                (get workflows (lastSegment (href item))) item) as Htrail.
  rewrite Hrun in Hdraw, Htrail. simpl in Hdraw, Htrail.
  destruct Hdraw as (Hh & Ho & Hc & Hdates).
  split_and!; [done..| |done].
  eexists. split; [exact Htrail|]. simpl. lia.
Qed.

Lemma addIndicators_only_appends_witness :
  let item' :=
    (drawIndicators (λ _ t, Date (t + 60)%Z) 0%Z
       (Composed
          ({| name := units "ci.yml"; isEnabled := false |},
           {| schedule := Some (units "30 5 * * 1");
              manuallyDispatchable := true |})) scenarioRow).1 in
  href item' = href scenarioRow ∧
  octiconStop item' = octiconStop scenarioRow ∧
  classList scenarioRow `prefix_of` classList item' ∧
  (∃ containers,
     trailing item' = trailing scenarioRow ++ containers ∧
     (length containers ≤ 1)%nat) ∧
  (∃ dates,
     label item' = label scenarioRow ++ dates ∧
     timers item' = timers scenarioRow ++ dates ∧
     (length dates ≤ 1)%nat).
Proof.
  apply (addIndicators_only_appends (λ _ t, Date (t + 60)%Z) 0%Z
           (mergeLoop [ {| name := units "ci.yml"; isEnabled := false |} ]
              (oneFile (units "ci.yml") scenarioYaml))
           scenarioRow _ Fulfilled).
  vm_compute. reflexivity.
Defined.

Lemma composedField_None w n :
  n ∉ composedFieldNames → composedField w n = None.
Proof.
  intros Hn. unfold composedField.
  repeat (case_bool_decide;
          [subst n; destruct Hn; apply (bool_decide_unpack _); by vm_compute|]).
  done.
Qed.

Lemma objectPrototypeNames_fields n :
  n ∈ objectPrototypeNames → n ∉ composedFieldNames.
Proof.
  intros Hn Hf. unfold objectPrototypeNames in Hn.
  repeat (apply elem_of_cons in Hn as [->|Hn];
          [apply (bool_decide_pack _) in Hf; by vm_compute in Hf|]).
  by apply not_elem_of_nil in Hn.
Qed.

(** A name the aggregation has no record for. *)
Lemma expected_gone workflows files n :
  n ∉ name <$> workflows ∨ get files n = Undefined →
  expected workflows files n = None.
Proof.
  intros [Hnot|Hundef]; unfold expected; [|by rewrite Hundef].
  destruct (get files n); try done.
  destruct (last (named n workflows)) as [w|] eqn:E; [|done].
  destruct Hnot. apply last_named_Some. by eexists.
Qed.

(** X12. A row whose name is not among the summaries, or whose definition
    is gone, is left as it is, without an error, unless its name is the
    name of a member of [Object.prototype] or of a field of a record. *)
Theorem unknown_or_removed_workflow_draws_nothing
    (nextDate : jsstring → Z → projection) (now : Z)
    (workflows : list Workflow) (workflowFiles details : jsobject)
    (item : row) :
  mergeLoop workflows workflowFiles = Resolved details →
  lastSegment (href item) ∉ name <$> workflows ∨
  get workflowFiles (lastSegment (href item)) = Undefined →
  lastSegment (href item) ∉ objectPrototypeNames →
  lastSegment (href item) ∉ composedFieldNames →
  addIndicators nextDate now (Resolved details) item = (item, Fulfilled).
Proof.
  intros [Hagg Hslot]%mergeLoop_spec Hgone%expected_gone Hmember Hfield.
  unfold addIndicators. destruct (existsOcticonStop item); [done|].
  rewrite (aggregated_missing details _ Hagg); [done| |done|].
  - by rewrite Hslot.
  - intros w. by apply composedField_None.
Qed.

Lemma unknown_or_removed_workflow_draws_nothing_witness :
  addIndicators (λ _ t, Date (t + 60)%Z) 0%Z (Resolved emptyObject)
    scenarioRow
  = (scenarioRow, Fulfilled).
Proof.
  apply (unknown_or_removed_workflow_draws_nothing
           (λ _ t, Date (t + 60)%Z) 0%Z
           [ {| name := units "ci.yml"; isEnabled := true |} ]
           emptyObject emptyObject scenarioRow).
  - vm_compute. reflexivity.
  - right. vm_compute. reflexivity.
  - apply (bool_decide_unpack _). vm_compute. exact I.
  - apply (bool_decide_unpack _). vm_compute. exact I.
Defined.

(** X18. A row named like a member of [Object.prototype], for which the
    aggregation has no record, is drawn as a disabled workflow: the lookup
    finds the inherited member, so on a row that shows no stop icon yet the
    run adds the stop icon and its sentence, no play icon and no next run,
    and ends normally. *)
Theorem inherited_name_row_is_drawn_disabled
    (nextDate : jsstring → Z → projection) (now : Z)
    (workflows : list Workflow) (workflowFiles details : jsobject)
    (item : row) :
  mergeLoop workflows workflowFiles = Resolved details →
  lastSegment (href item) ∉ name <$> workflows ∨
  get workflowFiles (lastSegment (href item)) = Undefined →
  lastSegment (href item) ∈ objectPrototypeNames →
  existsOcticonStop item = false →
  get details (lastSegment (href item))
  = Inherited (lastSegment (href item)) ∧
  let run := addIndicators nextDate now (Resolved details) item in
  run.2 = Fulfilled ∧
  trailing run.1 = trailing item ++ [[StopIcon]] ∧
  disabled run.1 = true ∧
  dispatchable run.1 = false ∧
  label run.1 = label item ∧
  timers run.1 = timers item ∧
  ariaLabel run.1
  = Some (match ariaLabel item with
          | Some (c :: existing) =>
              (c :: existing) ++ units ("." ++ nl)
                ++ units "This workflow is not enabled"
          | _ => units "This workflow is not enabled"
          end).
Proof.
  intros [Hagg Hslot]%mergeLoop_spec Hgone%expected_gone Hmember Hstop.
  set (n := lastSegment (href item)) in *.
  assert (get details n = Inherited n) as Hget.
  { rewrite <-Hslot in Hgone. pose proof Hagg as (Hown & Hproto & Hvals).
    unfold slot in Hgone. unfold get.
    assert (own details !! n = None) as ->.
    { case_bool_decide as Hn; [by subst n; rewrite Hn|].
      destruct (own details !! n) as [v|] eqn:E; [|done].
      destruct (Hvals n v E) as [w ->]. done. }
    unfold inherited, fromObjectPrototype.
    rewrite (bool_decide_eq_true_2 _ Hmember).
    destruct (proto details) as [| |w]; [done..|].
    rewrite composedField_None; [|by apply objectPrototypeNames_fields].
    by case_bool_decide. }
  split; [done|]. simpl. unfold addIndicators. fold n.
  rewrite Hstop, Hget. simpl. unfold drawIndicators. simpl.
  destruct (addTooltip_keeps (appendIcon (appendTrailer item) StopIcon)
              (units "This workflow is not enabled"))
    as (Ht & Hl & Hti & _).
  rewrite addTooltip_label. simpl.
  unfold disabled, dispatchable, newestTrailer.
  rewrite Ht, Hl, Hti. simpl. rewrite appendToLast_snoc, last_snoc. simpl.
  split_and!; try done.
Qed.

Lemma inherited_name_row_is_drawn_disabled_witness :
  get emptyObject
    (lastSegment (units "https://github.com/o/r/actions/workflows/constructor"))
  = Inherited
      (lastSegment
         (units "https://github.com/o/r/actions/workflows/constructor")) ∧
  let item :=
    {| href := units "https://github.com/o/r/actions/workflows/constructor";
       octiconStop := false; ariaLabel := None; classList := [];
       trailing := []; labelElement := true; label := []; timers := [] |} in
  let run :=
    addIndicators (λ _ _, Nothing) 0%Z (Resolved emptyObject) item in
  run.2 = Fulfilled ∧
  trailing run.1 = trailing item ++ [[StopIcon]] ∧
  disabled run.1 = true ∧
  dispatchable run.1 = false ∧
  label run.1 = label item ∧
  timers run.1 = timers item ∧
  ariaLabel run.1
  = Some (match ariaLabel item with
          | Some (c :: existing) =>
              (c :: existing) ++ units ("." ++ nl)
                ++ units "This workflow is not enabled"
          | _ => units "This workflow is not enabled"
          end).
Proof.
  apply (inherited_name_row_is_drawn_disabled (λ _ _, Nothing) 0%Z
           [] emptyObject emptyObject
           {| href :=
                units "https://github.com/o/r/actions/workflows/constructor";
              octiconStop := false; ariaLabel := None; classList := [];
              trailing := []; labelElement := true; label := [];
              timers := [] |}).
  - reflexivity.
  - left. apply not_elem_of_nil.
  - apply (bool_decide_unpack _). vm_compute. exact I.
  - reflexivity.
Defined.

(** X14. The tooltip a run leaves on a row that had none: nothing for an
    enabled workflow without a dispatch trigger, one sentence for a
    disabled or a dispatchable one, and both sentences, the disabled one
    first, separated by a full stop and a line feed, for one that is both.
    The next run is not part of it, and the tooltip is there however the
    run ends. *)
Theorem tooltip_of_a_fresh_row
    (nextDate : jsstring → Z → projection) (now : Z)
    (workflows : jsobject) (item : row) (w : ComposedWorkflow) :
  get workflows (lastSegment (href item)) = Composed w →
  existsOcticonStop item = false →
  ariaLabel item = None →
  ariaLabel (addIndicators nextDate now (Resolved workflows) item).1
  = match isEnabled w.1, manuallyDispatchable w.2 with
    | true, false => None
    | false, false => Some (units "This workflow is not enabled")
    | true, true => Some (units "This workflow can be triggered manually")
    | false, true =>
        Some (units "This workflow is not enabled"
                ++ units ("." ++ nl)
                ++ units "This workflow can be triggered manually")
    end.
Proof.
  intros Hw Hstop Hlabel.
  rewrite (addIndicators_found nextDate now workflows item w Hstop Hw).
  rewrite drawIndicators_afterIcons.
  assert (ariaLabel (afterIcons (Composed w) item)
          = match isEnabled w.1, manuallyDispatchable w.2 with
            | true, false => None
            | false, false => Some (units "This workflow is not enabled")
            | true, true =>
                Some (units "This workflow can be triggered manually")
            | false, true =>
                Some (units "This workflow is not enabled"
                        ++ units ("." ++ nl)
                        ++ units "This workflow can be triggered manually")
            end) as <-.
  { unfold afterIcons. simpl.
    destruct (isEnabled w.1), (manuallyDispatchable w.2); simpl;
      rewrite ?addTooltip_label; simpl; rewrite ?addTooltip_label; simpl;
      rewrite ?Hlabel; done. }
  destruct (scheduleOf (Composed w)) as [| | |[|c e]| |]; try done.
  destruct (nextDate (c :: e) now); try done.
  by destruct (labelElement item).
Qed.

Lemma tooltip_of_a_fresh_row_witness :
  ariaLabel
    (addIndicators (λ _ t, Date (t + 60)%Z) 0%Z
       (Resolved
          {| own := {[ units "ci.yml" :=
                         Composed
                           ({| name := units "ci.yml"; isEnabled := false |},
                            {| schedule := Some (units "30 5 * * 1");
                               manuallyDispatchable := true |}) ]};
             proto := ObjectPrototype |})
       scenarioRow).1
  = Some (units "This workflow is not enabled"
            ++ units ("." ++ nl)
            ++ units "This workflow can be triggered manually").
Proof.
  apply (tooltip_of_a_fresh_row (λ _ t, Date (t + 60)%Z) 0%Z
           {| own := {[ units "ci.yml" :=
                          Composed
                            ({| name := units "ci.yml"; isEnabled := false |},
                             {| schedule := Some (units "30 5 * * 1");
                                manuallyDispatchable := true |}) ]};
              proto := ObjectPrototype |}
           scenarioRow
           ({| name := units "ci.yml"; isEnabled := false |},
            {| schedule := Some (units "30 5 * * 1");
               manuallyDispatchable := true |})).
  - vm_compute. reflexivity.
  - reflexivity.
  - reflexivity.
Defined.



(** ** Reading a schedule back *)

(** X15. A cron expression comes back as it was written: when the text has
    the word schedule, separators, the word cron, an opening of colon,
    white space or quotes, then the expression, and the expression does not
    start with a colon, white space or a quote, holds no quote or line feed
    and is followed by a quote, a line feed or the end of the text, the
    schedule read is exactly that expression, provided the word schedule
    does not occur earlier in the text. *)
Theorem schedule_round_trip (before s a b c rest : jsstring) :
  matchesAt s a b c rest →
  stopsCapture rest →
  match c with
  | x :: _ => classQuote x = false
  | [] => True
  end →
  includes (before ++ units "schedul") (units "schedule") = false →
  exec (before ++ s) = Some c.
Proof.
  intros Hm Hstop Hhead Hfresh. apply exec_iff_firstMatch.
  exists before, s, a, b, rest. split_and!; [done..| |].
  - destruct Hm as (-> & Ha & Hca & Hb & Hcb & Hc & Hcc).
    intros a' b' c' rest' (Heq & Ha' & Hca' & Hb' & Hcb' & Hc' & Hcc').
    apply app_inv_head in Heq.
    change (units "cron") with (99 :: [114; 111; 110]) in Heq.
    simpl in Heq.
    assert (a' = a) as ->.
    { eapply (run_then_outsider classSep);
        [done|done| | |symmetry; exact Heq]; by vm_compute. }
    split; [done|].
    apply app_inv_head in Heq. injection Heq as Heq.
    destruct (decide (length b' ≤ length b)%nat) as [|Hlt]; [done|].
    exfalso. apply app_eq_shorter in Heq as (d & Hd & -> & Heq); [|lia].
    destruct c as [|x c0]; [done|]. destruct d as [|y d]; [done|].
    simpl in Heq. injection Heq as -> _.
    apply Forall_app in Hcb' as [_ Hd']. inversion Hd' as [|? ? Hy _]; subst.
    rewrite Hhead in Hy. done.
  - destruct Hm as (-> & _).
    intros before' s' Heq Hlen a' b' c' rest' (-> & _).
    symmetry in Heq.
    apply app_eq_shorter in Heq as (d & Hd & -> & Heq); [|done].
    change (units "schedule" ++ a ++ units "cron" ++ b ++ c ++ rest)
      with (units "schedul"
              ++ (101 :: a ++ units "cron" ++ b ++ c ++ rest)) in Heq.
    rewrite (app_assoc d) in Heq.
    apply prefix_within in Heq as [q Hq].
    + assert (includes ((before' ++ d) ++ units "schedul") (units "schedule")
              = true) as Hin.
      { apply includes_spec. exists before', q.
        by rewrite <-(app_assoc before'), Hq. }
      congruence.
    + rewrite length_app. destruct d; [done|]. simpl. lia.
Qed.

Lemma schedule_round_trip_witness :
  exec (units ("on:" ++ nl)
          ++ units ("schedule:" ++ nl ++ "  - cron: 0 12 * * 1-5" ++ nl))
  = Some (units "0 12 * * 1-5").
Proof.
  apply (schedule_round_trip (units ("on:" ++ nl))
           (units ("schedule:" ++ nl ++ "  - cron: 0 12 * * 1-5" ++ nl))
           (units (":" ++ nl ++ "  - ")) (units ": ")
           (units "0 12 * * 1-5") (units nl)).
  - split_and!; try done; apply Forall_fold_right; vm_compute; tauto.
  - reflexivity.
  - reflexivity.
  - vm_compute. reflexivity.
Defined.

(** ** Records do not depend on one another *)

(** X16. The record of a name depends on that name alone: when the runs
    compared do not throw, replacing what the definitions hold under
    another name, or listing one more summary of another name, leaves the
    record of the name as it was. *)
Theorem records_are_independent
    (workflows : list Workflow) (workflowFiles details : jsobject)
    (n other : jsstring) :
  other ≠ n →
  mergeLoop workflows workflowFiles = Resolved details →
  (∀ p details' w,
     mergeLoop workflows
       {| own := <[other := p]> (own workflowFiles);
          proto := proto workflowFiles |}
     = Resolved details' →
     get details' n = Composed w ↔ get details n = Composed w) ∧
  (∀ flag details' w,
     mergeLoop (workflows ++ [ {| name := other; isEnabled := flag |} ])
       workflowFiles
     = Resolved details' →
     get details' n = Composed w ↔ get details n = Composed w).
Proof.
  intros Hne [Hagg Hslot]%mergeLoop_spec. split.
  - intros p details' w [Hagg' Hslot']%mergeLoop_spec.
    rewrite (aggregated_get _ _ _ Hagg), (aggregated_get _ _ _ Hagg').
    rewrite Hslot, Hslot'. unfold expected, get. simpl.
    by rewrite lookup_insert_ne.
  - intros flag details' w [Hagg' Hslot']%mergeLoop_spec.
    rewrite (aggregated_get _ _ _ Hagg), (aggregated_get _ _ _ Hagg').
    rewrite Hslot, Hslot'. unfold expected, named.
    rewrite filter_app, filter_cons_False, filter_nil, app_nil_r; done.
Qed.

Lemma records_are_independent_witness :
  (∀ p details' w,
     mergeLoop [ {| name := units "ci.yml"; isEnabled := true |} ]
       {| own := <[units "lint.yml" := p]>
                   (own (oneFile (units "ci.yml") scenarioYaml));
          proto := proto (oneFile (units "ci.yml") scenarioYaml) |}
     = Resolved details' →
     get details' (units "ci.yml") = Composed w ↔
     get {| own := {[ units "ci.yml" :=
                        Composed
                          ({| name := units "ci.yml"; isEnabled := true |},
                           detailsOf scenarioYaml) ]};
            proto := ObjectPrototype |}
       (units "ci.yml") = Composed w) ∧
  (∀ flag details' w,
     mergeLoop ([ {| name := units "ci.yml"; isEnabled := true |} ]
                  ++ [ {| name := units "lint.yml"; isEnabled := flag |} ])
       (oneFile (units "ci.yml") scenarioYaml)
     = Resolved details' →
     get details' (units "ci.yml") = Composed w ↔
     get {| own := {[ units "ci.yml" :=
                        Composed
                          ({| name := units "ci.yml"; isEnabled := true |},
                           detailsOf scenarioYaml) ]};
            proto := ObjectPrototype |}
       (units "ci.yml") = Composed w).
Proof.
  apply (records_are_independent
           [ {| name := units "ci.yml"; isEnabled := true |} ]
           (oneFile (units "ci.yml") scenarioYaml) _
           (units "ci.yml") (units "lint.yml")).
  - vm_compute. discriminate.
  - vm_compute. reflexivity.
Defined.

(** X17. A schedule kept in a record is a piece of the text of its
    definition, and the words schedule and cron stand before it there. *)
Theorem stored_schedule_is_in_the_text
    (workflows : list Workflow) (workflowFiles details : jsobject)
    (n : jsstring) (w : ComposedWorkflow) (expression : jsstring) :
  mergeLoop workflows workflowFiles = Resolved details →
  get details n = Composed w →
  schedule w.2 = Some expression →
  ∃ workflowYaml before after,
    get workflowFiles n = Text workflowYaml ∧
    workflowYaml = before ++ expression ++ after ∧
    includes before (units "schedule") = true ∧
    includes before (units "cron") = true.
Proof.
  intros Hloop (yaml & Hget & _ & ->)%(mergeLoop_get _ _ _ _ _ Hloop) Hs.
  simpl in Hs.
  apply exec_Some in Hs as (pre & s' & -> & Hm & _).
  apply matchHere_Some in Hm as (a & b & rest & (-> & _) & _).
  exists (pre ++ units "schedule" ++ a ++ units "cron" ++ b ++ expression ++ rest),
    (pre ++ units "schedule" ++ a ++ units "cron" ++ b), rest.
  split_and!; [done| | |].
  - by rewrite <-!app_assoc.
  - apply includes_spec. exists pre, (a ++ units "cron" ++ b). done.
  - apply includes_spec. exists (pre ++ units "schedule" ++ a), b.
    by rewrite <-!app_assoc.
Qed.

Lemma stored_schedule_is_in_the_text_witness :
  ∃ workflowYaml before after,
    get (oneFile (units "ci.yml") scenarioYaml) (units "ci.yml")
      = Text workflowYaml ∧
    workflowYaml = before ++ units "30 5 * * 1" ++ after ∧
    includes before (units "schedule") = true ∧
    includes before (units "cron") = true.
Proof.
  apply (stored_schedule_is_in_the_text
           [ {| name := units "ci.yml"; isEnabled := false |} ]
           (oneFile (units "ci.yml") scenarioYaml)
           {| own := {[ units "ci.yml" :=
                          Composed
                            ({| name := units "ci.yml"; isEnabled := false |},
                             {| schedule := Some (units "30 5 * * 1");
                                manuallyDispatchable := true |}) ]};
              proto := ObjectPrototype |}
           (units "ci.yml")
           ({| name := units "ci.yml"; isEnabled := false |},
            {| schedule := Some (units "30 5 * * 1");
               manuallyDispatchable := true |})).
  - vm_compute. reflexivity.
  - vm_compute. reflexivity.
  - reflexivity.
Defined.
